(** * AI-Chess-Game-Advanced: a shallow embedding of [chess_advanced.py]

    The script sequences a two-seat chess match: a rate limiter in front of
    the remote text-generation API, two kinds of player ([DirectGeminiChessPlayer],
    [HumanChessPlayer]), the move validation of [ChessGame] and its game loop.

    Conventions of the embedding.
    - Time stamps ([time.time()], [datetime.now()]) are integers counting
      seconds; the clock readings a call performs are inputs of its model.
    - Text is a list of characters; the character classes are those of
      Python on ASCII text.
    - The rules engine ([chess.Board], [chess.Move]) is an interface
      ([RulesEngine]); the script never looks inside it.
    - The global [game_state] object and the fields of [ChessGame] are
      threaded explicitly through every operation.
    - Printing and the files written ([_save_board_svg], the final FEN) are
      left out. A [KeyboardInterrupt] is an outcome of an API request or of
      a console read; one raised at any other instant is not modelled. *)

From Stdlib Require Import ZArith Bool Ascii String DecimalString List Lia Arith.
Import ListNotations.
Local Open Scope Z_scope.

(* ===================================================================== *)
(** * Part I. Definitions                                                  *)
(* ===================================================================== *)

(** ** The rate limiter ([class RateLimiter]) *)

Record RateLimiter := mkRateLimiter {
  max_calls_per_minute : Z;
  max_calls_per_day : Z;
  calls_per_minute : list Z;
  calls_per_day : list Z;
  last_reset_time : Z            (* a [datetime], in seconds of local time *)
}.

(** [RateLimiter.__init__]; [now0] is the reading of [datetime.now()]. *)
Definition RateLimiter_init (per_minute per_day now0 : Z) : RateLimiter :=
  {| max_calls_per_minute := per_minute;
     max_calls_per_day := per_day;
     calls_per_minute := [];
     calls_per_day := [];
     last_reset_time := now0 |}.

(** The global [rate_limiter = RateLimiter()]. *)
Definition rate_limiter_default (now0 : Z) : RateLimiter :=
  RateLimiter_init 6 800 now0.

(** The clock readings one call of [wait_if_needed] performs. *)
Record clock := mkClock {
  now : Z;             (* [datetime.now()] at line 26 *)
  current_time : Z;    (* [time.time()] at line 27 *)
  woke_time : Z        (* [time.time()] at line 65, read after the sleep *)
}.

Definition seconds_per_day : Z := 24 * 60 * 60.

(** [d.date()], as a day number. *)
Definition date (d : Z) : Z := d / seconds_per_day.

(** [(tomorrow - now).total_seconds()] with [tomorrow] the next local midnight. *)
Definition seconds_to_midnight (d : Z) : Z :=
  (date d + 1) * seconds_per_day - d.

(** [len(l)] as a Python integer. *)
Definition len {A} (l : list A) : Z := Z.of_nat (length l).

(** [[call_time for call_time in l if call_time > bound]] *)
Definition newer_than (bound : Z) (l : list Z) : list Z :=
  filter (fun call_time => call_time >? bound) l.

(** [min(l)]; Python raises [ValueError] on an empty list. *)
Fixpoint list_min (l : list Z) : option Z :=
  match l with
  | [] => None
  | x :: r => match list_min r with
              | None => Some x
              | Some m => Some (Z.min x m)
              end
  end.

(** How a call of [wait_if_needed] ends. *)
Inductive acquired :=
| Recorded (stamp : Z) (slept : Z)   (* reached line 70 and appended [stamp] *)
| BlockedUntilMidnight (slept : Z)   (* the [return] of line 52 *)
| MinOfEmpty.                        (* [min([])] raised [ValueError] at line 56 *)

(** [RateLimiter.wait_if_needed] (lines 25-75, the usage print left out). *)
Definition wait_if_needed (self : RateLimiter) (c : clock)
  : RateLimiter * acquired :=
  (* Reset daily counter if a new day has started *)
  let '(per_day0, reset0) :=
    if date (now c) >? date (last_reset_time self)
    then ([], now c)
    else (calls_per_day self, last_reset_time self) in
  (* Remove calls older than 1 minute *)
  let minute_ago := current_time c - 60 in
  let per_minute1 := newer_than minute_ago (calls_per_minute self) in
  (* Remove calls older than 1 day *)
  let day_ago := current_time c - seconds_per_day in
  let per_day1 := newer_than day_ago per_day0 in
  let self1 := {| max_calls_per_minute := max_calls_per_minute self;
                  max_calls_per_day := max_calls_per_day self;
                  calls_per_minute := per_minute1;
                  calls_per_day := per_day1;
                  last_reset_time := reset0 |} in
  (* Check daily limit first *)
  if len per_day1 >=? max_calls_per_day self then
    ({| max_calls_per_minute := max_calls_per_minute self;
        max_calls_per_day := max_calls_per_day self;
        calls_per_minute := [];
        calls_per_day := [];
        last_reset_time := reset0 |},
     BlockedUntilMidnight (seconds_to_midnight (now c)))
  else
    let record (stamp slept : Z) (per_minute : list Z) :=
      ({| max_calls_per_minute := max_calls_per_minute self;
          max_calls_per_day := max_calls_per_day self;
          calls_per_minute := per_minute ++ [stamp];
          calls_per_day := per_day1 ++ [stamp];
          last_reset_time := reset0 |},
       Recorded stamp slept) in
    (* Check per-minute limit *)
    if len per_minute1 >=? max_calls_per_minute self then
      match list_min per_minute1 with
      | None => (self1, MinOfEmpty)
      | Some oldest_call =>
          let wait_time := 60 - (current_time c - oldest_call) + 5 in
          if wait_time >? 0 then
            (* Refresh the list after waiting *)
            record (woke_time c) wait_time
                   (newer_than (woke_time c - 60) per_minute1)
          else record (current_time c) 0 per_minute1
      end
    else record (current_time c) 0 per_minute1.

(** The daily sequence after the calendar-day check and the pruning
    (lines 30-41). *)
Definition day_pruned (self : RateLimiter) (c : clock) : list Z :=
  newer_than (current_time c - seconds_per_day)
    (if date (now c) >? date (last_reset_time self) then [] else calls_per_day self).

(** The per-minute sequence after the first pruning (line 37). *)
Definition minute_pruned (self : RateLimiter) (c : clock) : list Z :=
  newer_than (current_time c - 60) (calls_per_minute self).

(** A sequence of calls, one clock record per call: the final limiter. *)
Fixpoint acquire_all (self : RateLimiter) (cs : list clock) : RateLimiter :=
  match cs with
  | [] => self
  | c :: rest => acquire_all (fst (wait_if_needed self c)) rest
  end.

(** The time stamps the calls of a sequence appended to the ledger, oldest
    first. *)
Fixpoint recorded_calls (self : RateLimiter) (cs : list clock) : list Z :=
  match cs with
  | [] => []
  | c :: rest =>
      let '(self', r) := wait_if_needed self c in
      match r with
      | Recorded stamp _ => stamp :: recorded_calls self' rest
      | _ => recorded_calls self' rest
      end
  end.

(** Every call of the sequence reached line 70. *)
Fixpoint all_recorded (self : RateLimiter) (cs : list clock) : bool :=
  match cs with
  | [] => true
  | c :: rest =>
      let '(self', r) := wait_if_needed self c in
      match r with
      | Recorded _ _ => all_recorded self' rest
      | _ => false
      end
  end.

(** No call of the sequence found a new calendar day (line 30). *)
Fixpoint no_day_change (self : RateLimiter) (cs : list clock) : bool :=
  match cs with
  | [] => true
  | c :: rest =>
      negb (date (now c) >? date (last_reset_time self))
      && no_day_change (fst (wait_if_needed self c)) rest
  end.

(** The clock a call leaves behind: the last reading it made. *)
Definition time_after (r : acquired) (c : clock) : Z :=
  match r with
  | Recorded stamp _ => stamp
  | BlockedUntilMidnight slept => current_time c + slept
  | MinOfEmpty => current_time c
  end.

(** The clock readings of a sequence of calls are those of a clock that
    does not run backwards and of a [time.sleep] that lasts at least as
    long as asked: [last] is the latest reading made before the sequence. *)
Fixpoint clock_sound (last : Z) (self : RateLimiter) (cs : list clock) : Prop :=
  match cs with
  | [] => True
  | c :: rest =>
      let '(self', r) := wait_if_needed self c in
      last <= current_time c
      /\ match r with
         | Recorded stamp slept => current_time c + slept <= stamp
         | _ => True
         end
      /\ clock_sound (time_after r c) self' rest
  end.

(** The number of time stamps of [log] in the window [(t - width, t]]. *)
Definition calls_in_window (width : Z) (log : list Z) (t : Z) : Z :=
  len (filter (fun x => (t - width <? x) && (x <=? t)) log).

(** The property of the rolling windows, as the specification words it:
    no 60-second window holds more recorded calls than the per-minute
    capacity, no 24-hour window more than the daily capacity. *)
Definition rolling_windows_respected (per_minute per_day : Z) (log : list Z) : Prop :=
  forall t, calls_in_window 60 log t <= per_minute
            /\ calls_in_window seconds_per_day log t <= per_day.

(** A caller that asks every [gap] seconds, [n] times from [start] on, and
    whose clocks agree ([datetime.now()] and [time.time()] count from the
    same local midnight). *)
Definition steady_calls (start gap : Z) (n : nat) : list clock :=
  map (fun k => let t := start + gap * Z.of_nat k in mkClock t t t) (seq 0 n).

(** ** Text ([str]) *)

Definition text := list ascii.

(** A string literal as text. *)
Definition txt (s : string) : text := list_ascii_of_string s.

Definition text_eqb (a b : text) : bool :=
  if list_eq_dec ascii_dec a b then true else false.

(** [c] lies between [lo] and [hi] in code-point order. *)
Definition between (lo hi c : ascii) : bool :=
  ((nat_of_ascii lo <=? nat_of_ascii c) && (nat_of_ascii c <=? nat_of_ascii hi))%nat.

(** A [str] of Python holds Unicode code points, and [str.strip],
    [str.split], [str.lower] and the classes [\w] and [\b] of [re] look at
    all of them. The classes below are these notions on ASCII: a [text]
    stands for the [str] of the same characters when all of them are
    ASCII, and what is said of white space, capitals and words is said of
    such texts. *)
Definition is_ascii (c : ascii) : bool := between "000" "127" c.

Definition ascii_text (s : text) : bool := forallb is_ascii s.

(** [c.isspace()] on ASCII: tab, line feed, vertical tab, form feed,
    carriage return, the four separators 28-31 and the space. *)
Definition isspace (c : ascii) : bool :=
  between "009" "013" c || between "028" " " c.

(** [c.lower()] on ASCII *)
Definition lower_char (c : ascii) : ascii :=
  if between "A" "Z" c then ascii_of_nat (nat_of_ascii c + 32) else c.

(** [s.lower()] *)
Definition lower (s : text) : text := map lower_char s.

(** [s.lstrip()] *)
Fixpoint lstrip (s : text) : text :=
  match s with
  | [] => []
  | c :: r => if isspace c then lstrip r else s
  end.

(** [s.rstrip()] *)
Definition rstrip (s : text) : text := rev (lstrip (rev s)).

(** [s.strip()] *)
Definition strip (s : text) : text := rstrip (lstrip s).

(** The maximal runs of characters that are not separators, from left to
    right; [word] holds the characters of the run being read, last first. *)
Fixpoint fields_from (is_sep : ascii -> bool) (word : text) (s : text) : list text :=
  match s with
  | [] => match word with [] => [] | _ => [rev word] end
  | c :: r =>
      if is_sep c
      then match word with
           | [] => fields_from is_sep [] r
           | _ => rev word :: fields_from is_sep [] r
           end
      else fields_from is_sep (c :: word) r
  end.

(** [w] holds no separator. *)
Definition unbroken (is_sep : ascii -> bool) (w : text) : bool :=
  forallb (fun c => negb (is_sep c)) w.

(** [s] is empty or starts with a separator. *)
Definition at_break (is_sep : ascii -> bool) (s : text) : bool :=
  match s with [] => true | c :: _ => is_sep c end.

(** [s.split()]: the words between runs of white space. *)
Definition split (s : text) : list text := fields_from isspace [] s.

(** ** The pattern [\b[a-h][1-8][a-h][1-8][qrbn]?\b] *)

(** [\w] on ASCII: a letter, a digit or the underscore. *)
Definition is_word_char (c : ascii) : bool :=
  between "a" "z" c || between "A" "Z" c || between "0" "9" c
  || between "_" "_" c.

Definition is_file (c : ascii) : bool := between "a" "h" c.
Definition is_rank (c : ascii) : bool := between "1" "8" c.
Definition is_promotion (c : ascii) : bool :=
  between "q" "q" c || between "r" "r" c || between "b" "b" c || between "n" "n" c.

(** The character before a position, if any, is a word character. *)
Definition word_before (prev : option ascii) : bool :=
  match prev with Some c => is_word_char c | None => false end.

(** [\b] between the character [prev] and the text [s] that follows it:
    exactly one side is a word character (the ends of the text are not). *)
Definition word_boundary (prev : option ascii) (s : text) : bool :=
  xorb (word_before prev) (word_before (hd_error s)).

(** The match of the pattern that starts at the head of [s], where [prev]
    is the character before it. The optional promotion letter is greedy:
    it is taken when the text goes on to match, given up otherwise. *)
Definition match_uci_at (prev : option ascii) (s : text) : option text :=
  if word_boundary prev s then
    match s with
    | f1 :: r1 :: f2 :: r2 :: rest =>
        if is_file f1 && is_rank r1 && is_file f2 && is_rank r2 then
          match rest with
          | p :: rest' =>
              if is_promotion p && word_boundary (Some p) rest'
              then Some [f1; r1; f2; r2; p]
              else if word_boundary (Some r2) rest
                   then Some [f1; r1; f2; r2] else None
          | [] =>
              if word_boundary (Some r2) rest
              then Some [f1; r1; f2; r2] else None
          end
        else None
    | _ => None
    end
  else None.

(** [re.findall]: the matches from left to right, none overlapping another.
    [skip] counts the characters of the last match still to pass. *)
Fixpoint findall_from (prev : option ascii) (skip : nat) (s : text) : list text :=
  match s with
  | [] => []
  | c :: rest =>
      match skip with
      | S k => findall_from (Some c) k rest
      | O =>
          match match_uci_at prev s with
          | Some m => m :: findall_from (Some c) (length m - 1) rest
          | None => findall_from (Some c) 0 rest
          end
      end
  end.

(** [re.findall(uci_pattern, content)] *)
Definition findall_uci (content : text) : list text := findall_from None 0 content.

(** ** Move tokens, as the specification words them *)

(** The move-token grammar: file, rank, file, rank and an optional promotion
    letter among q, r, b and n. *)
Definition is_uci_token (w : text) : bool :=
  match w with
  | [f1; r1; f2; r2] => is_file f1 && is_rank r1 && is_file f2 && is_rank r2
  | [f1; r1; f2; r2; p] =>
      is_file f1 && is_rank r1 && is_file f2 && is_rank r2 && is_promotion p
  | _ => false
  end.

(** The words of a text: its maximal runs of letters, digits and
    underscores. *)
Definition non_word (c : ascii) : bool := negb (is_word_char c).

Definition words (s : text) : list text := fields_from non_word [] s.


(** ** The rules engine ([chess.Board], [chess.Move]) *)

(** What the script asks of the chess library. [from_uci] is
    [chess.Move.from_uci], [None] standing for its [ValueError];
    [legal_moves b] is [list(b.legal_moves)], and [move in b.legal_moves]
    is membership in that list; [turn b] is [True] when White is to move. *)
Class RulesEngine (Board Move : Type) := {
  move_eqb : Move -> Move -> bool;
  move_eqb_eq : forall a b, move_eqb a b = true <-> a = b;
  from_uci : text -> option Move;
  legal_moves : Board -> list Move;
  push : Board -> Move -> Board;
  turn : Board -> bool;
  initial_board : Board;
  is_checkmate : Board -> bool;
  is_stalemate : Board -> bool;
  is_insufficient_material : Board -> bool;
  is_fivefold_repetition : Board -> bool;
  is_seventyfive_moves : Board -> bool;
  can_claim_draw : Board -> bool
}.

Section Extraction.
Context {Board Move : Type} {engine : RulesEngine Board Move}.

(** [move in legal_moves] *)
Definition move_in (move : Move) (legal : list Move) : bool :=
  existsb (move_eqb move) legal.

(** The text parses as a move and that move is in the list. *)
Definition legal_text (legal : list Move) (w : text) : bool :=
  match from_uci w with
  | Some move => move_in move legal
  | None => false
  end.

(** The loop of lines 229-235 over the matches. *)
Fixpoint first_legal_match (matches : list text) (legal : list Move) : option text :=
  match matches with
  | [] => None
  | m :: rest =>
      match from_uci m with
      | Some move =>
          if move_in move legal then Some m else first_legal_match rest legal
      | None => first_legal_match rest legal      (* except ValueError: continue *)
      end
  end.

(** [DirectGeminiChessPlayer._extract_move_from_response] *)
Definition _extract_move_from_response (content : text) (legal : list Move)
  : option text :=
  (* Clean the content *)
  let content := lower (strip content) in
  (* Try to find a UCI move pattern in the response *)
  let matches := findall_uci content in
  (* Check each match against legal moves *)
  match first_legal_match matches legal with
  | Some m => Some m
  | None =>
      (* If no pattern match, try the first word *)
      let first_word := match split content with w :: _ => w | [] => [] end in
      match first_word with
      | [] => None
      | _ =>
          match from_uci first_word with
          | Some move => if move_in move legal then Some first_word else None
          | None => None
          end
      end
  end.


End Extraction.

(** ** The game state ([class GameState]) *)

(** The fields of the global [game_state]. [terminations] is not a field
    of the Python object: it lists the reasons passed to [terminate_game]
    so far, oldest first, so that writes to the termination record can be
    counted. *)
Record GameState := mkGameState {
  should_terminate : bool;
  termination_reason : text;
  move_count : Z;
  consecutive_errors : Z;
  terminations : list text
}.

(** [GameState.__init__] *)
Definition GameState_init : GameState :=
  {| should_terminate := false;
     termination_reason := [];
     move_count := 0;
     consecutive_errors := 0;
     terminations := [] |}.

(** [GameState.terminate_game] *)
Definition terminate_game (self : GameState) (reason : text) : GameState :=
  {| should_terminate := true;
     termination_reason := reason;
     move_count := move_count self;
     consecutive_errors := consecutive_errors self;
     terminations := terminations self ++ [reason] |}.

(** [game_state.consecutive_errors += 1] *)
Definition count_error (self : GameState) : GameState :=
  {| should_terminate := should_terminate self;
     termination_reason := termination_reason self;
     move_count := move_count self;
     consecutive_errors := consecutive_errors self + 1;
     terminations := terminations self |}.

(** [game_state.move_count += 1] and, a few lines on,
    [game_state.consecutive_errors = 0]. *)
Definition count_move (self : GameState) : GameState :=
  {| should_terminate := should_terminate self;
     termination_reason := termination_reason self;
     move_count := move_count self + 1;
     consecutive_errors := 0;
     terminations := terminations self |}.

(** ** The outside world *)

(** What [result = response.json()] holds for the lines 181-182. *)
Inductive json_result :=
| NoCandidates                  (* no ["candidates"], or an empty list *)
| Candidate (content : text)    (* [candidates[0].content.parts[0].text] *)
| Malformed.                    (* the subscripts of line 182 raise *)

(** How [requests.post] ends. *)
Inductive post_outcome :=
| Timeout                       (* [requests.exceptions.Timeout] *)
| RequestException              (* another [requests.exceptions.RequestException] *)
| Interrupted                   (* [KeyboardInterrupt] *)
| Response (status_code : Z) (result : json_result).

(** What [input()] gives: a line, or [KeyboardInterrupt]; at the end of
    the input it raises [EOFError]. *)
Inductive console_event :=
| Line (s : text)
| CtrlC.

(** The world a run meets: the clock readings of the successive calls of
    [wait_if_needed] and the outcomes of the successive API requests. *)
Record world := mkWorld {
  clocks : nat -> clock;
  replies : nat -> post_outcome
}.

(** The state outside the game objects: the global [rate_limiter], how
    many limiter calls and API requests were made, the arguments of the
    [time.sleep] calls so far, and the console input still to be read. *)
Record io := mkIo {
  limiter : RateLimiter;
  acquires : nat;
  posts : nat;
  sleeps : list Z;
  console : list console_event
}.

(** [time.sleep(seconds)] *)
Definition sleep (seconds : Z) (st : io) : io :=
  {| limiter := limiter st; acquires := acquires st; posts := posts st;
     sleeps := sleeps st ++ [seconds]; console := console st |}.

(** [rate_limiter.wait_if_needed()] *)
Definition acquire (w : world) (st : io) : io * acquired :=
  let '(limiter', r) := wait_if_needed (limiter st) (clocks w (acquires st)) in
  ({| limiter := limiter'; acquires := S (acquires st); posts := posts st;
      sleeps := sleeps st ++ match r with
                             | Recorded _ slept =>
                                 if slept >? 0 then [slept] else []
                             | BlockedUntilMidnight slept => [slept]
                             | MinOfEmpty => []
                             end;
      console := console st |}, r).

(** [requests.post(...)] *)
Definition post (w : world) (st : io) : io * post_outcome :=
  ({| limiter := limiter st; acquires := acquires st; posts := S (posts st);
      sleeps := sleeps st; console := console st |}, replies w (posts st)).

(** The call of [wait_if_needed] raised. *)
Definition raised (r : acquired) : bool :=
  match r with MinOfEmpty => true | _ => false end.

(** A call returns a value or lets a [KeyboardInterrupt] through. *)
Inductive returned (A : Type) :=
| Return (a : A)
| KeyboardInterrupt.
Arguments Return {A} a.
Arguments KeyboardInterrupt {A}.

(** ** The players *)

Inductive color := white | black.

(** [color.title()] *)
Definition title (c : color) : text :=
  match c with white => txt "White" | black => txt "Black" end.

Inductive player :=
| DirectGeminiChessPlayer (c : color)
| HumanChessPlayer (c : color).

(** [self.name] *)
Definition name (p : player) : text :=
  match p with
  | DirectGeminiChessPlayer c => txt "AI_" ++ title c
  | HumanChessPlayer c => txt "Human_" ++ title c
  end.

(** [isinstance(current_player, DirectGeminiChessPlayer)] *)
Definition is_ai (p : player) : bool :=
  match p with DirectGeminiChessPlayer _ => true | HumanChessPlayer _ => false end.

Definition max_retries : nat := 3.

Section Players.
Context {Board Move : Type} {engine : RulesEngine Board Move}.
Variable w : world.

(** How one pass through the [try] block of [get_move] ends: with a
    [return] (or an interrupt), or with a failure, after which
    [retry_count] is increased and [time.sleep(seconds)] is called if
    another attempt follows. *)
Inductive attempted :=
| Done (r : returned (option text))
| Failed (seconds : Z).

(** The body of the loop of [DirectGeminiChessPlayer.get_move] (lines
    123-214); [retry_count] is its value when the pass begins. *)
Definition attempt (board : Board) (retry_count : nat) (st : io) : attempted * io :=
  let '(st1, r) := acquire w st in
  if raised r then (Failed 1, st1)               (* except Exception *)
  else
    (* Get current position info *)
    match legal_moves board with
    | [] => (Done (Return None), st1)            (* if not legal_moves *)
    | legal =>
        (* Make API call *)
        let '(st2, outcome) := post w st1 in
        match outcome with
        | Interrupted => (Done KeyboardInterrupt, st2)
        | Timeout => (Failed 2, st2)
        | RequestException => (Failed 2, st2)
        | Response status_code result =>
            if negb (status_code =? 200)
            then (Failed (2 ^ Z.of_nat (S retry_count)), st2)  (* Exponential backoff *)
            else
              (* Extract move from response *)
              match result with
              | Candidate content =>
                  match _extract_move_from_response content legal with
                  | Some move_str => (Done (Return (Some move_str)), st2)
                  | None => (Failed 1, st2)
                  end
              | NoCandidates => (Failed 1, st2)
              | Malformed => (Failed 1, st2)     (* except Exception *)
              end
        end
    end.

(** The [while retry_count < max_retries] loop of
    [DirectGeminiChessPlayer.get_move]; [remaining] is
    [max_retries - retry_count]. *)
Fixpoint get_move_attempts (board : Board) (remaining : nat) (st : io)
  : returned (option text) * io :=
  match remaining with
  | O => (Return None, st)                       (* lines 216-217 *)
  | S remaining' =>
      let retry_count := (max_retries - remaining)%nat in
      match attempt board retry_count st with
      | (Done r, st') => (r, st')
      | (Failed seconds, st') =>
          (* [retry_count += 1], then the sleep if another attempt follows *)
          get_move_attempts board remaining'
            (if (S retry_count <? max_retries)%nat then sleep seconds st' else st')
      end
  end.

(** An API request that ends in one of the failures the loop retries on: a
    time-out, a transport error, a status other than 200, or a reply that
    yields no legal move. *)
Definition attempt_fails (legal : list Move) (outcome : post_outcome) : bool :=
  match outcome with
  | Timeout | RequestException => true
  | Interrupted => false
  | Response status_code result =>
      negb (status_code =? 200)
      || match result with
         | Candidate content =>
             match _extract_move_from_response content legal with
             | Some _ => false
             | None => true
             end
         | NoCandidates | Malformed => true
         end
  end.

(** [DirectGeminiChessPlayer.get_move] *)
Definition ai_get_move (board : Board) (st : io) : returned (option text) * io :=
  get_move_attempts board max_retries st.

(** The [while True] loop of [HumanChessPlayer.get_move], by recursion on
    the console input still to come. *)
Fixpoint human_get_move_loop (legal : list Move) (lines : list console_event)
    (gs : GameState) : option text * GameState * list console_event :=
  match lines with
  | [] => (None, terminate_game gs (txt "Input ended"), [])     (* EOFError *)
  | CtrlC :: rest => (None, terminate_game gs (txt "User interrupted"), rest)
  | Line l :: rest =>
      let user_input := lower (strip l) in
      if text_eqb user_input (txt "quit")
      then (None, terminate_game gs (txt "Human player quit"), rest)
      else if text_eqb user_input (txt "help")
      then human_get_move_loop legal rest gs
      else if text_eqb user_input (txt "legal")
      then human_get_move_loop legal rest gs
      else if text_eqb user_input []
      then human_get_move_loop legal rest gs
      else
        (* Try to parse the move *)
        match from_uci user_input with
        | Some move =>
            if move_in move legal
            then (Some user_input, gs, rest)
            else human_get_move_loop legal rest gs
        | None => human_get_move_loop legal rest gs       (* except ValueError *)
        end
  end.

(** [HumanChessPlayer.get_move] *)
Definition human_get_move (board : Board) (gs : GameState) (st : io)
  : option text * GameState * io :=
  let '(r, gs', rest) := human_get_move_loop (legal_moves board) (console st) gs in
  (r, gs',
   {| limiter := limiter st; acquires := acquires st; posts := posts st;
      sleeps := sleeps st; console := rest |}).

(** [current_player.get_move(self.board)] *)
Definition get_move (p : player) (board : Board) (gs : GameState) (st : io)
  : returned (option text) * GameState * io :=
  match p with
  | DirectGeminiChessPlayer _ =>
      let '(r, st') := ai_get_move board st in (r, gs, st')
  | HumanChessPlayer _ =>
      let '(r, gs', st') := human_get_move board gs st in (Return r, gs', st')
  end.

End Players.

(** ** The game controller ([class ChessGame]) *)

Inductive mode := ai_vs_ai | human_vs_ai | human_vs_human.

(** [str(n)] *)
Definition str (n : Z) : text := txt (NilZero.string_of_int (Z.to_int n)).

Section Game.
Context {Board Move : Type} {engine : RulesEngine Board Move}.

Record ChessGame := mkChessGame {
  board : Board;
  move_history : list text;
  game_mode : mode;
  max_consecutive_errors : Z;
  white_player : player;
  black_player : player
}.

(** [ChessGame.__init__]; the mode and the colour are values of their
    types, so the two [ValueError]s of the input validation cannot occur. *)
Definition ChessGame_init (game_mode : mode) (human_color : color) : ChessGame :=
  {| board := initial_board;
     move_history := [];
     game_mode := game_mode;
     max_consecutive_errors := 3;
     white_player :=
       match game_mode, human_color with
       | ai_vs_ai, _ => DirectGeminiChessPlayer white
       | human_vs_ai, white => HumanChessPlayer white
       | human_vs_ai, black => DirectGeminiChessPlayer white
       | human_vs_human, _ => HumanChessPlayer white
       end;
     black_player :=
       match game_mode, human_color with
       | ai_vs_ai, _ => DirectGeminiChessPlayer black
       | human_vs_ai, white => DirectGeminiChessPlayer black
       | human_vs_ai, black => HumanChessPlayer black
       | human_vs_human, _ => HumanChessPlayer black
       end |}.

(** [ChessGame._validate_and_make_move]. The snapshot written by
    [_save_board_svg] is a file only and is left out. *)
Definition _validate_and_make_move (self : ChessGame) (gs : GameState)
    (uci_move_str : text) : bool * ChessGame * GameState :=
  (* Clean the move string *)
  let uci_move_str := lower (strip uci_move_str) in
  (* Parse UCI move *)
  match from_uci uci_move_str with
  | None => (false, self, gs)                    (* except ValueError *)
  | Some move =>
      (* Check if move is legal *)
      if negb (move_in move (legal_moves (board self)))
      then (false, self, gs)
      else
        (* Execute the move *)
        (true,
         {| board := push (board self) move;
            move_history := move_history self ++ [uci_move_str];
            game_mode := game_mode self;
            max_consecutive_errors := max_consecutive_errors self;
            white_player := white_player self;
            black_player := black_player self |},
         count_move gs)
  end.

(** [ChessGame._check_game_over] *)
Definition _check_game_over (self : ChessGame) (gs : GameState) : bool * GameState :=
  if is_checkmate (board self) then
    let winner := if turn (board self) then txt "Black" else txt "White" in
    (true, terminate_game gs (txt "CHECKMATE! " ++ winner ++ txt " wins!"))
  else if is_stalemate (board self) then
    (true, terminate_game gs (txt "STALEMATE! Draw."))
  else if is_insufficient_material (board self) then
    (true, terminate_game gs (txt "DRAW! Insufficient material."))
  else if is_fivefold_repetition (board self) then
    (true, terminate_game gs (txt "DRAW! Fivefold repetition."))
  else if is_seventyfive_moves (board self) then
    (true, terminate_game gs (txt "DRAW! Seventy-five move rule."))
  else if can_claim_draw (board self) then
    (true, terminate_game gs (txt "DRAW! Draw can be claimed."))
  else (false, gs).

(** The terminal conditions in the order of the specification, each with
    the reason it is reported with. *)
Definition terminal_conditions (b : Board) : list (bool * text) :=
  [ (is_checkmate b,
     txt "CHECKMATE! " ++ (if turn b then txt "Black" else txt "White") ++ txt " wins!");
    (is_stalemate b, txt "STALEMATE! Draw.");
    (is_insufficient_material b, txt "DRAW! Insufficient material.");
    (is_fivefold_repetition b, txt "DRAW! Fivefold repetition.");
    (is_seventyfive_moves b, txt "DRAW! Seventy-five move rule.");
    (can_claim_draw b, txt "DRAW! Draw can be claimed.") ].

(** The reason of the first condition of the list that holds. *)
Definition first_reason (conditions : list (bool * text)) : option text :=
  option_map snd (find fst conditions).

(** The moves of a list applied one after the other. *)
Fixpoint apply_all (self : ChessGame) (gs : GameState) (moves : list text)
  : ChessGame * GameState :=
  match moves with
  | [] => (self, gs)
  | m :: rest =>
      let '(_, self', gs') := _validate_and_make_move self gs m in
      apply_all self' gs' rest
  end.

(** The game objects and the state around them. *)
Record session := mkSession {
  game : ChessGame;
  state : GameState;
  outside : io
}.

Variable w : world.

(** How an iteration of the game loop ends. *)
Inductive flow := Continue | Break | Raise.

(** [self.white_player if self.board.turn else self.black_player] *)
Definition current_player (self : ChessGame) : player :=
  if turn (board self) then white_player self else black_player self.

(** The body of the [while] loop of [play_game] (lines 463-512). *)
Definition loop_body (s : session) : flow * session :=
  let self := game s in
  (* Check if game is already over *)
  let '(over, gs1) := _check_game_over self (state s) in
  if over then (Break, mkSession self gs1 (outside s))
  else
    (* Determine current player *)
    let current_player := current_player self in
    (* Get move from current player *)
    let '(r, gs2, st2) := get_move w current_player (board self) gs1 (outside s) in
    match r with
    | KeyboardInterrupt => (Raise, mkSession self gs2 st2)
    | Return None =>
        let gs3 := count_error gs2 in
        if consecutive_errors gs3 >=? max_consecutive_errors self then
          (Break,
           mkSession self
             (terminate_game gs3
                (txt "Too many consecutive errors from " ++ name current_player))
             st2)
        else if is_ai current_player then
          (* For AI players, wait and try again *)
          (Continue, mkSession self gs3 (sleep 5 st2))
        else
          (* Human player quit or had input error *)
          (Break, mkSession self gs3 st2)
    | Return (Some move_str) =>
        (* Validate and make the move *)
        let '(ok, self', gs3) := _validate_and_make_move self gs2 move_str in
        if negb ok then
          let gs4 := count_error gs3 in
          if consecutive_errors gs4 >=? max_consecutive_errors self then
            (Break, mkSession self' (terminate_game gs4 (txt "Too many invalid moves")) st2)
          else
            (* For AI players, wait before trying again *)
            (Continue,
             mkSession self' gs4 (if is_ai current_player then sleep 3 st2 else st2))
        else
          (* Brief pause between moves *)
          (Continue,
           mkSession self' gs3
             (match game_mode self with
              | ai_vs_ai => sleep 2 st2
              | _ => if is_ai current_player then sleep 1 st2 else st2
              end))
    end.

(** The [while] loop of [play_game]: [None] when [fuel] iterations did not
    end it, otherwise how it was left ([Continue] for a false condition). *)
Fixpoint play_loop (max_moves : Z) (fuel : nat) (s : session) : option (flow * session) :=
  match fuel with
  | O => None
  | S fuel' =>
      if negb (should_terminate (state s)) && (move_count (state s) <? max_moves)
      then
        match loop_body s with
        | (Continue, s') => play_loop max_moves fuel' s'
        | ended => Some ended
        end
      else Some (Continue, s)
  end.

(** What [play_game] does once the loop is left: the check of the move
    limit (lines 514-516), or the handler of [KeyboardInterrupt]
    (lines 518-520). The handler of [Exception] (lines 521-523) is never
    entered: [get_move] and [_validate_and_make_move] catch their own. *)
Definition after_loop (max_moves : Z) (ended : flow * session) : session :=
  let '(how, s) := ended in
  match how with
  | Raise =>
      mkSession (game s) (terminate_game (state s) (txt "User interrupted")) (outside s)
  | _ =>
      if move_count (state s) >=? max_moves
      then mkSession (game s)
             (terminate_game (state s)
                (txt "Maximum moves (" ++ str max_moves ++ txt ") reached"))
             (outside s)
      else s
  end.

(** [ChessGame.play_game], up to the final report. *)
Definition play_game (max_moves : Z) (fuel : nat) (s : session) : option session :=
  option_map (after_loop max_moves) (play_loop max_moves fuel s).

(** Iterations that suffice for a game of [max_moves] moves in which every
    move may be preceded by fewer than [ceiling] failures. *)
Definition enough_fuel (max_moves ceiling : Z) : nat :=
  Z.to_nat ((Z.max max_moves 0 + 1) * Z.max ceiling 1 + 1).

(** The move history is as long as the move counter says. *)
Definition history_counted (s : session) : Prop :=
  len (move_history (game s)) = move_count (state s).

(** The termination record was written exactly once. *)
Definition written_once (gs : GameState) : Prop :=
  should_terminate gs = true /\ terminations gs = [termination_reason gs].

(** What holds whenever the condition of the game loop is evaluated: the
    record has not been written, the error counter is below the ceiling,
    and it is zero when a console player is to move. *)
Definition running (ceiling : Z) (s : session) : Prop :=
  should_terminate (state s) = false
  /\ terminations (state s) = []
  /\ max_consecutive_errors (game s) = ceiling
  /\ 0 <= consecutive_errors (state s) < ceiling
  /\ (is_ai (current_player (game s)) = false -> consecutive_errors (state s) = 0).

(** A bound on the iterations the loop still makes. *)
Definition iterations_left (max_moves ceiling : Z) (s : session) : Z :=
  if move_count (state s) <? max_moves
  then (max_moves - move_count (state s)) * ceiling
       + (ceiling - consecutive_errors (state s))
  else 0.

End Game.

(** ** A scripted rules engine

    An instance of the interface on which the model runs: a board is the
    list of the positions still to come, each with its legal moves and
    its flags, and a move is its UCI text. *)

Definition is_piece_letter (c : ascii) : bool :=
  existsb (fun p => between p p c) (txt "pnbrqk").

Definition is_square (f r : ascii) : bool := is_file f && is_rank r.

(** Stand-in for [chess.Move.from_uci]: the null move, a drop, or two
    distinct squares with an optional promotion piece. *)
Definition scripted_from_uci (uci : text) : option text :=
  if text_eqb uci (txt "0000") then Some uci
  else match uci with
       | [p; a; f; r] =>
           if between "@" "@" a
           then if is_piece_letter (lower_char p) && is_square f r
                then Some [lower_char p; a; f; r] else None
           else if is_square p a && is_square f r && negb (text_eqb [p; a] [f; r])
                then Some uci else None
       | [f1; r1; f2; r2; p] =>
           if is_square f1 r1 && is_square f2 r2 && is_piece_letter p
              && negb (text_eqb [f1; r1] [f2; r2])
           then Some uci else None
       | _ => None
       end.

Record position := mkPosition {
  pos_legal : list text;
  pos_white_to_move : bool;
  pos_checkmate : bool;
  pos_stalemate : bool;
  pos_insufficient_material : bool;
  pos_fivefold_repetition : bool;
  pos_seventyfive_moves : bool;
  pos_can_claim_draw : bool
}.

(** A position in which the game goes on. *)
Definition quiet (white : bool) (legal : list text) : position :=
  mkPosition legal white false false false false false false.

Definition current (b : list position) : position :=
  match b with
  | p :: _ => p
  | [] => quiet true []
  end.

(** [text_eqb] decides equality. *)
Definition text_eqb_eq (a b : text) : text_eqb a b = true <-> a = b :=
  match list_eq_dec ascii_dec a b as d
        return ((if d then true else false) = true <-> a = b) with
  | left e => conj (fun _ => e) (fun _ => eq_refl)
  | right n => conj (fun H => False_ind _ (diff_false_true H))
                    (fun e => False_ind _ (n e))
  end.

(** The engine whose game starts with the positions of [script]. *)
Definition scripted (script : list position) : RulesEngine (list position) text := {|
  move_eqb := text_eqb;
  move_eqb_eq := text_eqb_eq;
  from_uci := scripted_from_uci;
  legal_moves b := pos_legal (current b);
  push b _ := tl b;
  turn b := pos_white_to_move (current b);
  initial_board := script;
  is_checkmate b := pos_checkmate (current b);
  is_stalemate b := pos_stalemate (current b);
  is_insufficient_material b := pos_insufficient_material (current b);
  is_fivefold_repetition b := pos_fivefold_repetition (current b);
  is_seventyfive_moves b := pos_seventyfive_moves (current b);
  can_claim_draw b := pos_can_claim_draw (current b)
|}.

(** ** A small game for the examples *)

(** White has e2e4, Black answers e7e5, and White is then checkmated in a
    position where a draw could also be claimed. *)
Definition opening : list position :=
  [ quiet true [txt "e2e4"];
    quiet false [txt "e7e5"];
    mkPosition [] true true false false false false true ].

(** The engine of the examples. *)
#[export] Instance opening_engine : RulesEngine (list position) text :=
  scripted opening.

(** A world whose clocks advance by 20 seconds from one call of the limiter
    to the next and whose API always answers with [reply]. *)
Definition steady_world (reply : post_outcome) : world :=
  mkWorld (fun n => let t := 20 * Z.of_nat n in mkClock t t t) (fun _ => reply).

(** The state outside the game when the script starts, with [lines] typed
    on the console. *)
Definition io_init (lines : list console_event) : io :=
  mkIo (rate_limiter_default 0) 0 0 [] lines.

(** ** Notions for the further properties (Part III) *)

(** What a call of [wait_if_needed] that ended with [r] slept, against
    the bounds the code gives: nothing, or more than 5 and at most 65
    seconds for the per-minute limit, or at most a day for the daily one. *)
Definition sleep_within_bounds (self : RateLimiter) (c : clock) (r : acquired) : Prop :=
  match r with
  | Recorded stamp slept =>
      (slept = 0 /\ stamp = current_time c
       /\ len (minute_pruned self c) < max_calls_per_minute self)
      \/ (5 < slept <= 65 /\ stamp = woke_time c
          /\ max_calls_per_minute self <= len (minute_pruned self c))
  | BlockedUntilMidnight slept => 0 < slept <= seconds_per_day
  | MinOfEmpty => True
  end.

(** The reasons [HumanChessPlayer.get_move] terminates the game with. *)
Definition human_exit_reasons : list text :=
  [txt "Human player quit"; txt "User interrupted"; txt "Input ended"].

Section FurtherNotions.
Context {Board Move : Type} {engine : RulesEngine Board Move}.

(** A console event the loop of [HumanChessPlayer.get_move] reads past: a
    line of ASCII characters other than [quit] that is [help], [legal],
    blank, or not a legal move. *)
Definition read_past (legal : list Move) (e : console_event) : bool :=
  match e with
  | CtrlC => false
  | Line l =>
      let user_input := lower (strip l) in
      ascii_text l
      && negb (text_eqb user_input (txt "quit"))
      && (text_eqb user_input (txt "help")
          || text_eqb user_input (txt "legal")
          || text_eqb user_input []
          || negb (legal_text legal user_input))
  end.

End FurtherNotions.

(** The clock records of the limiter calls number [first] to [last - 1]. *)
Definition clocks_between (w : world) (first last : nat) : list clock :=
  map (clocks w) (seq first (last - first)).

(** From [st] to [st'] every API request was preceded by a call of the
    limiter of its own, and the limiter changed through these calls only. *)
Definition requests_guarded (w : world) (st st' : io) : Prop :=
  (acquires st <= acquires st')%nat
  /\ (posts st <= posts st')%nat
  /\ (posts st' + acquires st <= acquires st' + posts st)%nat
  /\ limiter st' = acquire_all (limiter st) (clocks_between w (acquires st) (acquires st')).

(** From [st] to [st'] nothing happened but reading the console. *)
Definition console_only (st st' : io) : Prop :=
  limiter st' = limiter st /\ acquires st' = acquires st
  /\ posts st' = posts st /\ sleeps st' = sleeps st.





Section FurtherGameNotions.
Context {Board Move : Type} {engine : RulesEngine Board Move}.

(** A game of two console players. *)
Definition humans_only (self : @ChessGame Board) : Prop :=
  game_mode self = human_vs_human
  /\ is_ai (white_player self) = false /\ is_ai (black_player self) = false.

End FurtherGameNotions.

(** ** The entry point *)

(** How [select_game_mode] ends: it returns a mode and a colour (with the
    console input still unread), calls [sys.exit(0)], or lets the
    [EOFError] of [input()] through. *)
Inductive selection :=
| Selected (game_mode : mode) (human_color : color) (rest : list console_event)
| SystemExit
| EOFError.

(** [select_game_mode], by recursion on the console input still to come. *)
Fixpoint select_game_mode (lines : list console_event) : selection :=
  match lines with
  | [] => EOFError
  | CtrlC :: _ => SystemExit                         (* except KeyboardInterrupt *)
  | Line l :: rest =>
      let choice := strip l in
      if text_eqb choice (txt "1") then Selected ai_vs_ai white rest
      else if text_eqb choice (txt "2") then
        match rest with
        | [] => EOFError
        | CtrlC :: _ => SystemExit
        | Line l' :: rest' =>
            let color_choice := strip l' in
            if text_eqb color_choice (txt "1") then Selected human_vs_ai white rest'
            else if text_eqb color_choice (txt "2") then Selected human_vs_ai black rest'
            else select_game_mode rest'
        end
      else if text_eqb choice (txt "3") then Selected human_vs_human white rest
      else select_game_mode rest
  end.

(** A line that answers the menu with none of its numbers: ASCII
    characters that, stripped, are neither 1, 2 nor 3. *)
Definition no_menu_number (e : console_event) : bool :=
  match e with
  | CtrlC => false
  | Line l =>
      ascii_text l
      && negb (text_eqb (strip l) (txt "1"))
      && negb (text_eqb (strip l) (txt "2"))
      && negb (text_eqb (strip l) (txt "3"))
  end.

(** What an outcome of [select_game_mode] says about the input [lines]. *)
Definition selection_sound (lines : list console_event) (r : selection) : Prop :=
  match r with
  | Selected game_mode human_color rest =>
      (game_mode = human_vs_ai \/ human_color = white)
      /\ exists read, lines = read ++ rest /\ read <> [] /\ ~ In CtrlC read
  | SystemExit => In CtrlC lines
  | EOFError => ~ In CtrlC lines
  end.

(** [not api_key], for the value of [os.getenv]. *)
Definition missing (api_key : option text) : bool :=
  match api_key with
  | None | Some [] => true
  | Some _ => false
  end.

(** [game_mode in ["ai_vs_ai", "human_vs_ai"]] *)
Definition has_ai_player (game_mode : mode) : bool :=
  match game_mode with
  | ai_vs_ai | human_vs_ai => true
  | human_vs_human => false
  end.

Section Main.
Context {Board Move : Type} {engine : RulesEngine Board Move}.
Variable w : world.

(** How [main] ends. *)
Inductive main_end :=
| Exit0                           (* [sys.exit(0)] in [select_game_mode] *)
| UncaughtEOFError                (* [EOFError] out of [select_game_mode] *)
| ApiKeyRequired                  (* the [return] of line 610 *)
| GamePlayed (final : @session Board).

(** [main], with the iterations [fuel] for the game loop. The handler of
    [Exception] around the game is never entered: the constructor gets a
    mode and a colour of [select_game_mode], and [play_game] catches what
    is raised in it. *)
Definition main (api_key : option text) (fuel : nat) (st0 : io) : option main_end :=
  (* Select game mode *)
  match select_game_mode (console st0) with
  | SystemExit => Some Exit0
  | EOFError => Some UncaughtEOFError
  | Selected game_mode human_color rest =>
      (* Check API key only if needed *)
      if has_ai_player game_mode && missing api_key then Some ApiKeyRequired
      else
        (* Create and start the game *)
        option_map GamePlayed
          (play_game w 150 fuel
             (mkSession (ChessGame_init game_mode human_color) GameState_init
                {| limiter := limiter st0; acquires := acquires st0;
                   posts := posts st0; sleeps := sleeps st0; console := rest |}))
  end.

End Main.

(** ** The point at which a session ends *)

Section EndingNotions.
Context {Board Move : Type} {engine : RulesEngine Board Move}.
Variable w : world.



End EndingNotions.

(* ===================================================================== *)
(** * Part II. Properties                                                  *)
(* ===================================================================== *)

(** ** Lists of time stamps *)

Lemma len_app {A} (l1 l2 : list A) : len (l1 ++ l2) = len l1 + len l2.
Proof. unfold len. rewrite length_app. lia. Qed.

Lemma len_nonneg {A} (l : list A) : 0 <= len l.
Proof. unfold len. lia. Qed.

Lemma len_filter_le {A} (f : A -> bool) (l : list A) : len (filter f l) <= len l.
Proof.
  unfold len. induction l as [|x l IH]; simpl; [lia|].
  destruct (f x); simpl; lia.
Qed.

Lemma len_filter_mono {A} (f g : A -> bool) (l : list A) :
  (forall x, In x l -> f x = true -> g x = true) ->
  len (filter f l) <= len (filter g l).
Proof.
  unfold len. induction l as [|x l IH]; simpl; intros H; [lia|].
  assert (IH' : (Z.of_nat (length (filter f l)) <= Z.of_nat (length (filter g l)))).
  { apply IH. intros y Hy. apply H. now right. }
  destruct (f x) eqn:Hf.
  - rewrite (H x (or_introl eq_refl) Hf). simpl. lia.
  - destruct (g x); simpl; lia.
Qed.

Lemma newer_than_app (b : Z) (l1 l2 : list Z) :
  newer_than b (l1 ++ l2) = newer_than b l1 ++ newer_than b l2.
Proof. unfold newer_than. apply filter_app. Qed.

Lemma newer_than_In (b x : Z) (l : list Z) :
  In x (newer_than b l) <-> In x l /\ b < x.
Proof.
  unfold newer_than. rewrite filter_In.
  split; intros [H1 H2]; split; auto; lia.
Qed.

Lemma newer_than_newer_than (a b : Z) (l : list Z) :
  a <= b -> newer_than b (newer_than a l) = newer_than b l.
Proof.
  intros Hab. unfold newer_than. induction l as [|x l IH]; simpl; [reflexivity|].
  destruct (x >? a) eqn:Ha; simpl; rewrite IH; [reflexivity|].
  destruct (x >? b) eqn:Hb; [lia|reflexivity].
Qed.

Lemma newer_than_single (b x : Z) : b < x -> newer_than b [x] = [x].
Proof. intros H. unfold newer_than. simpl. destruct (x >? b) eqn:E; [reflexivity|lia]. Qed.

Lemma list_min_None (l : list Z) : list_min l = None -> l = [].
Proof. destruct l as [|x r]; simpl; [reflexivity|]. destruct (list_min r); discriminate. Qed.

Lemma list_min_In (l : list Z) (m : Z) : list_min l = Some m -> In m l.
Proof.
  revert m. induction l as [|x r IH]; simpl; intros m H; [discriminate|].
  destruct (list_min r) as [m'|] eqn:E.
  - injection H as <-. destruct (Z.min_spec x m') as [[_ ->]|[_ ->]]; auto.
  - injection H as <-. now left.
Qed.

(** Pruning at a bound that the list holds a member below shortens it. *)
Lemma newer_than_drops (b x : Z) (l : list Z) :
  In x l -> x <= b -> len (newer_than b l) < len l.
Proof.
  unfold newer_than, len. induction l as [|y l IH]; simpl; intros Hin Hx; [contradiction|].
  destruct Hin as [->|Hin].
  - destruct (x >? b) eqn:E; [lia|].
    pose proof (len_filter_le (fun call_time => call_time >? b) l) as Hle.
    unfold len in Hle. lia.
  - specialize (IH Hin Hx). destruct (y >? b); simpl; lia.
Qed.

(** ** One call of [wait_if_needed], by cases *)

Lemma wait_if_needed_capacities (self : RateLimiter) (c : clock) :
  max_calls_per_minute (fst (wait_if_needed self c)) = max_calls_per_minute self
  /\ max_calls_per_day (fst (wait_if_needed self c)) = max_calls_per_day self.
Proof.
  unfold wait_if_needed.
  destruct (date (now c) >? date (last_reset_time self));
    repeat match goal with
           | |- context [if ?b then _ else _] => destruct b
           | |- context [match list_min ?l with _ => _ end] => destruct (list_min l)
           end; simpl; auto.
Qed.

Lemma wait_if_needed_blocked (self : RateLimiter) (c : clock) :
  max_calls_per_day self <= len (day_pruned self c) ->
  exists reset,
    wait_if_needed self c =
    ({| max_calls_per_minute := max_calls_per_minute self;
        max_calls_per_day := max_calls_per_day self;
        calls_per_minute := [];
        calls_per_day := [];
        last_reset_time := reset |},
     BlockedUntilMidnight (seconds_to_midnight (now c))).
Proof.
  unfold wait_if_needed, day_pruned. intros H.
  destruct (date (now c) >? date (last_reset_time self)); simpl in *.
  - destruct (_ >=? _) eqn:E; [eauto|lia].
  - destruct (len (newer_than _ (calls_per_day self)) >=? _) eqn:E; [eauto|lia].
Qed.

Lemma wait_if_needed_recorded (self self' : RateLimiter) (c : clock) (stamp slept : Z) :
  wait_if_needed self c = (self', Recorded stamp slept) ->
  len (day_pruned self c) < max_calls_per_day self
  /\ calls_per_day self' = day_pruned self c ++ [stamp]
  /\ ((len (minute_pruned self c) < max_calls_per_minute self
       /\ stamp = current_time c /\ slept = 0
       /\ calls_per_minute self' = minute_pruned self c ++ [stamp])
      \/ (exists oldest_call,
             max_calls_per_minute self <= len (minute_pruned self c)
             /\ list_min (minute_pruned self c) = Some oldest_call
             /\ slept = 60 - (current_time c - oldest_call) + 5
             /\ stamp = woke_time c
             /\ calls_per_minute self' =
                newer_than (woke_time c - 60) (minute_pruned self c) ++ [stamp])).
Proof.
  unfold wait_if_needed, day_pruned, minute_pruned.
  destruct (date (now c) >? date (last_reset_time self));
    cbv zeta;
    match goal with
    | |- context [len ?l >=? max_calls_per_day self] =>
        destruct (len l >=? max_calls_per_day self) eqn:Ed; [discriminate|]
    end;
    (destruct (len (newer_than (current_time c - 60) (calls_per_minute self))
               >=? max_calls_per_minute self) eqn:Em;
     [destruct (list_min (newer_than (current_time c - 60) (calls_per_minute self)))
        as [oldest|] eqn:Eo; [|discriminate];
      pose proof (list_min_In _ _ Eo) as Hin; apply newer_than_In in Hin;
      destruct (60 - (current_time c - oldest) + 5 >? 0) eqn:Ew; [|lia]
     |]);
    intros H; injection H as <- <- <-;
    cbn [calls_per_day calls_per_minute];
    (split; [lia|]); (split; [reflexivity|]);
    try (left; repeat split; lia);
    right; exists oldest; repeat split; try lia; reflexivity.
Qed.

Lemma wait_if_needed_not_recorded (self self' : RateLimiter) (c : clock) (r : acquired) :
  wait_if_needed self c = (self', r) ->
  (forall stamp slept, r <> Recorded stamp slept) ->
  len (calls_per_minute self') <= len (calls_per_minute self)
  /\ len (calls_per_day self') <= len (calls_per_day self).
Proof.
  unfold wait_if_needed. intros H Hr.
  pose proof (len_nonneg (calls_per_minute self)) as Hm.
  pose proof (len_nonneg (calls_per_day self)) as Hd.
  pose proof (len_filter_le (fun call_time => call_time >? current_time c - 60)
                (calls_per_minute self)) as Hfm.
  pose proof (len_filter_le (fun call_time => call_time >? current_time c - seconds_per_day)
                (calls_per_day self)) as Hfd.
  destruct (date (now c) >? date (last_reset_time self)); cbv zeta in H;
    repeat match type of H with
           | (if ?b then _ else _) = _ => destruct b
           | match list_min ?l with _ => _ end = _ => destruct (list_min l)
           end;
    injection H as <- <-;
    try (exfalso; eapply Hr; reflexivity);
    cbn [calls_per_day calls_per_minute]; unfold newer_than; simpl filter;
    split; assumption.
Qed.

(** ** Rolling windows over the recorded calls *)

Lemma newer_than_max (a b : Z) (l : list Z) :
  newer_than b (newer_than a l) = newer_than (Z.max a b) l.
Proof.
  unfold newer_than. induction l as [|x l IH]; simpl; [reflexivity|].
  destruct (x >? a) eqn:Ha; simpl; rewrite IH.
  - destruct (x >? b) eqn:Hb; destruct (x >? Z.max a b) eqn:Hab; try reflexivity; lia.
  - destruct (x >? Z.max a b) eqn:Hab; [lia|reflexivity].
Qed.

Lemma Forall_le_app (T s : Z) (log : list Z) :
  Forall (fun x => x <= T) log -> T <= s -> Forall (fun x => x <= s) (log ++ [s]).
Proof.
  intros H Hs. apply Forall_app. split.
  - eapply Forall_impl; [|exact H]. simpl. intros; lia.
  - constructor; [lia|constructor].
Qed.

(** A pruned sequence is no longer than the window that ends at the last
    recorded call. *)
Lemma pruned_within_window (W T b : Z) (log : list Z) :
  Forall (fun x => x <= T) log -> T - W <= b ->
  len (newer_than b log) <= calls_in_window W log T.
Proof.
  intros Hall Hb. unfold calls_in_window, newer_than.
  apply len_filter_mono. intros x Hx Hgt.
  rewrite Forall_forall in Hall. specialize (Hall x Hx). lia.
Qed.

(** Appending a call that is not older than any recorded one keeps every
    window within [cap] as soon as the pruned sequence it joins does. *)
Lemma window_extend (W cap s b : Z) (log : list Z) :
  Forall (fun x => x <= s) log ->
  b <= s - W ->
  len (newer_than b (log ++ [s])) <= cap ->
  (forall t, calls_in_window W log t <= cap) ->
  forall t, calls_in_window W (log ++ [s]) t <= cap.
Proof.
  intros Hall Hb Hcap Hold t.
  destruct (Z_lt_le_dec t s) as [Hlt|Hge].
  - unfold calls_in_window. rewrite filter_app. simpl.
    destruct ((t - W <? s) && (s <=? t)) eqn:E; [lia|].
    rewrite app_nil_r. apply Hold.
  - eapply Z.le_trans; [|exact Hcap].
    unfold calls_in_window, newer_than. apply len_filter_mono.
    intros x _ Hx. lia.
Qed.

Lemma minute_windows_gen (cs : list clock) :
  forall (self : RateLimiter) (pre : list Z) (T b : Z),
    Forall (fun x => x <= T) pre ->
    b <= T - 60 ->
    calls_per_minute self = newer_than b pre ->
    (forall t, calls_in_window 60 pre t <= max_calls_per_minute self) ->
    clock_sound T self cs ->
    all_recorded self cs = true ->
    forall t, calls_in_window 60 (pre ++ recorded_calls self cs) t
              <= max_calls_per_minute self.
Proof.
  induction cs as [|c rest IH]; intros self pre T b Hall Hb Hcpm Hwin Hclock Hrec.
  - simpl. rewrite app_nil_r. exact Hwin.
  - simpl in *.
    pose proof (wait_if_needed_capacities self c) as [HM _].
    destruct (wait_if_needed self c) as [self' r] eqn:Hstep.
    destruct r as [stamp slept| |]; try discriminate.
    destruct Hclock as (HT & Hsleep & Hclock).
    apply wait_if_needed_recorded in Hstep as (_ & _ & Hmin).
    simpl in HM. rewrite <- HM.
    replace (pre ++ stamp :: recorded_calls self' rest)
      with ((pre ++ [stamp]) ++ recorded_calls self' rest)
      by (rewrite <- app_assoc; reflexivity).
    unfold minute_pruned in Hmin. rewrite Hcpm, newer_than_max in Hmin.
    assert (Hpruned : len (newer_than (Z.max b (current_time c - 60)) pre)
                      <= max_calls_per_minute self).
    { eapply Z.le_trans; [apply (pruned_within_window 60 T); [exact Hall|lia]|apply Hwin]. }
    destruct Hmin as [(Hlen & -> & -> & Hcpm') | (oldest & Hfull & Hold & -> & -> & Hcpm')].
    + apply (IH self' (pre ++ [current_time c]) (current_time c)
               (Z.max b (current_time c - 60))).
      * apply (Forall_le_app T); [exact Hall|lia].
      * lia.
      * rewrite Hcpm', newer_than_app, newer_than_single by lia. reflexivity.
      * rewrite HM. apply (window_extend 60 _ _ (Z.max b (current_time c - 60))).
        -- eapply Forall_impl; [|exact Hall]. simpl. intros; lia.
        -- lia.
        -- rewrite newer_than_app, newer_than_single, len_app by lia.
           change (len [current_time c]) with 1. lia.
        -- exact Hwin.
      * exact Hclock.
      * exact Hrec.
    + pose proof (list_min_In _ _ Hold) as Hin.
      pose proof Hin as Hin'. apply newer_than_In in Hin' as [_ Hnew].
      rewrite newer_than_max in Hcpm'.
      assert (Hdrop : len (newer_than (Z.max (Z.max b (current_time c - 60)) (woke_time c - 60)) pre)
                      < max_calls_per_minute self).
      { rewrite <- newer_than_max.
        eapply Z.lt_le_trans; [apply (newer_than_drops _ oldest); [exact Hin|lia]|exact Hpruned]. }
      apply (IH self' (pre ++ [woke_time c]) (woke_time c)
               (Z.max (Z.max b (current_time c - 60)) (woke_time c - 60))).
      * apply (Forall_le_app T); [exact Hall|lia].
      * lia.
      * rewrite Hcpm', newer_than_app, newer_than_single by lia. reflexivity.
      * rewrite HM. apply (window_extend 60 _ _
                             (Z.max (Z.max b (current_time c - 60)) (woke_time c - 60))).
        -- eapply Forall_impl; [|exact Hall]. simpl. intros; lia.
        -- lia.
        -- rewrite newer_than_app, newer_than_single, len_app by lia.
           change (len [woke_time c]) with 1. lia.
        -- exact Hwin.
      * exact Hclock.
      * exact Hrec.
Qed.

Lemma day_windows_gen (cs : list clock) :
  forall (self : RateLimiter) (pre : list Z) (T b : Z),
    Forall (fun x => x <= T) pre ->
    b <= T - seconds_per_day ->
    calls_per_day self = newer_than b pre ->
    (forall t, calls_in_window seconds_per_day pre t <= max_calls_per_day self) ->
    clock_sound T self cs ->
    all_recorded self cs = true ->
    no_day_change self cs = true ->
    forall t, calls_in_window seconds_per_day (pre ++ recorded_calls self cs) t
              <= max_calls_per_day self.
Proof.
  induction cs as [|c rest IH]; intros self pre T b Hall Hb Hcpd Hwin Hclock Hrec Hday.
  - simpl. rewrite app_nil_r. exact Hwin.
  - simpl in *.
    pose proof (wait_if_needed_capacities self c) as [_ HD].
    apply andb_prop in Hday as [Hsame Hday].
    destruct (wait_if_needed self c) as [self' r] eqn:Hstep.
    destruct r as [stamp slept| |]; try discriminate.
    destruct Hclock as (HT & Hsleep & Hclock).
    assert (Hslept : 0 <= slept).
    { apply wait_if_needed_recorded in Hstep as (_ & _ & [(_ & _ & -> & _)|(o & _ & Ho & -> & _)]);
        [lia|]. apply list_min_In, newer_than_In in Ho. lia. }
    apply wait_if_needed_recorded in Hstep as (Hlen & Hcpd' & _).
    unfold day_pruned in Hlen, Hcpd'.
    destruct (date (now c) >? date (last_reset_time self)); [discriminate|].
    rewrite Hcpd, newer_than_max in Hlen, Hcpd'.
    simpl in HD. rewrite <- HD.
    replace (pre ++ stamp :: recorded_calls self' rest)
      with ((pre ++ [stamp]) ++ recorded_calls self' rest)
      by (rewrite <- app_assoc; reflexivity).
    apply (IH self' (pre ++ [stamp]) stamp (Z.max b (current_time c - seconds_per_day))).
    + apply (Forall_le_app T); [exact Hall|lia].
    + lia.
    + rewrite Hcpd', newer_than_app, newer_than_single; [reflexivity|].
      unfold seconds_per_day in *. lia.
    + rewrite HD. apply (window_extend _ _ _ (Z.max b (current_time c - seconds_per_day))).
      * eapply Forall_impl; [|exact Hall]. simpl. intros; lia.
      * lia.
      * rewrite newer_than_app, newer_than_single, len_app;
          [change (len [stamp]) with 1; lia|].
        unfold seconds_per_day in *. lia.
      * exact Hwin.
    + exact Hclock.
    + exact Hrec.
    + exact Hday.
Qed.

(** The sizes of the two sequences stay within the capacities. *)
Lemma ledger_sizes_gen (cs : list clock) :
  forall (self : RateLimiter) (T : Z),
    1 <= max_calls_per_minute self ->
    0 <= max_calls_per_day self ->
    len (calls_per_minute self) <= max_calls_per_minute self ->
    len (calls_per_day self) <= max_calls_per_day self ->
    clock_sound T self cs ->
    len (calls_per_minute (acquire_all self cs)) <= max_calls_per_minute self
    /\ len (calls_per_day (acquire_all self cs)) <= max_calls_per_day self.
Proof.
  induction cs as [|c rest IH]; intros self T HM HD Hm Hd Hclock.
  - simpl. auto.
  - simpl in *.
    pose proof (wait_if_needed_capacities self c) as [HM' HD'].
    destruct (wait_if_needed self c) as [self' r] eqn:Hstep.
    simpl in *. destruct Hclock as (HT & Hsleep & Hclock).
    rewrite <- HM', <- HD'.
    apply (IH self' (time_after r c)); try lia; try exact Hclock.
    + destruct r as [stamp slept| |].
      * apply wait_if_needed_recorded in Hstep as (_ & _ & Hmin).
        pose proof (len_filter_le (fun call_time => call_time >? current_time c - 60)
                      (calls_per_minute self)) as Hp.
        fold (newer_than (current_time c - 60) (calls_per_minute self)) in Hp.
        fold (minute_pruned self c) in Hp.
        destruct Hmin as [(Hlen & _ & _ & ->) | (oldest & _ & Hold & -> & -> & ->)];
          rewrite len_app;
          match goal with |- context [len [?x]] => change (len [x]) with 1 end; [lia|].
        pose proof (list_min_In _ _ Hold) as Hin.
        pose proof (newer_than_drops (woke_time c - 60) oldest _ Hin). lia.
      * apply wait_if_needed_not_recorded in Hstep; [lia|discriminate].
      * apply wait_if_needed_not_recorded in Hstep; [lia|discriminate].
    + destruct r as [stamp slept| |].
      * apply wait_if_needed_recorded in Hstep as (Hlen & -> & _).
        rewrite len_app. change (len [stamp]) with 1. lia.
      * apply wait_if_needed_not_recorded in Hstep; [lia|discriminate].
      * apply wait_if_needed_not_recorded in Hstep; [lia|discriminate].
Qed.

(** ** The quota governor: what holds and what does not *)

(** C2 (as amended). With a per-minute capacity of at least one call and a
    clock that honours the sleeps, the per-minute and the daily sequence
    never hold more entries than their capacity; the recorded calls of
    every rolling 60-second window stay within the per-minute capacity as
    long as no call blocked until midnight, and those of every rolling
    24-hour window within the daily capacity as long as, moreover, no
    calendar day began. *)
Theorem quota_ledger_bounds (per_minute per_day now0 last : Z) (cs : list clock) :
  1 <= per_minute -> 0 <= per_day ->
  clock_sound last (RateLimiter_init per_minute per_day now0) cs ->
  let self := RateLimiter_init per_minute per_day now0 in
  (len (calls_per_minute (acquire_all self cs)) <= per_minute
   /\ len (calls_per_day (acquire_all self cs)) <= per_day)
  /\ (all_recorded self cs = true ->
      forall t, calls_in_window 60 (recorded_calls self cs) t <= per_minute)
  /\ (all_recorded self cs = true -> no_day_change self cs = true ->
      forall t, calls_in_window seconds_per_day (recorded_calls self cs) t <= per_day).
Proof.
  intros HM HD Hclock self.
  assert (Hempty : forall W t, calls_in_window W [] t = 0) by reflexivity.
  split; [|split].
  - apply (ledger_sizes_gen cs self last); cbn [self RateLimiter_init
      max_calls_per_minute max_calls_per_day calls_per_minute calls_per_day];
      try assumption; change (len []) with 0; lia.
  - intros Hrec t.
    apply (minute_windows_gen cs self [] last (last - 60)); try assumption.
    + constructor.
    + lia.
    + reflexivity.
    + intros t'. rewrite Hempty. cbn. lia.
  - intros Hrec Hday t.
    apply (day_windows_gen cs self [] last (last - seconds_per_day)); try assumption.
    + constructor.
    + lia.
    + reflexivity.
    + intros t'. rewrite Hempty. cbn. lia.
Qed.

(** Two calls a minute, five a day: the third call finds the minute full,
    sleeps 45 seconds and is recorded at second 66. *)
Lemma quota_ledger_bounds_witness :
  let self := RateLimiter_init 2 5 0 in
  let cs := [mkClock 0 0 0; mkClock 10 10 10; mkClock 20 20 66; mkClock 70 70 70] in
  recorded_calls self cs = [0; 10; 66; 70]
  /\ (len (calls_per_minute (acquire_all self cs)) <= 2
      /\ len (calls_per_day (acquire_all self cs)) <= 5)
  /\ (forall t, calls_in_window 60 (recorded_calls self cs) t <= 2)
  /\ (forall t, calls_in_window seconds_per_day (recorded_calls self cs) t <= 5).
Proof.
  intros self cs.
  assert (Hclock : clock_sound 0 self cs).
  { vm_compute. repeat split; discriminate. }
  destruct (quota_ledger_bounds 2 5 0 0 cs ltac:(lia) ltac:(lia) Hclock) as (Hsize & Hmin & Hday).
  split; [reflexivity|]. split; [exact Hsize|].
  split; [apply Hmin; reflexivity|apply Hday; reflexivity].
Defined.

(** C2 (as stated) fails. With one call a minute and one a day, a call at
    23:59:50 is recorded, the next blocks until midnight and clears both
    sequences, and a call one second after midnight is recorded: two recorded
    calls lie 11 seconds apart. With two calls a day, the calendar-day
    check lets four calls through within ten minutes around midnight. *)
Lemma quota_rolling_windows_counterexample :
  (let self := RateLimiter_init 1 1 86390 in
   let cs := [mkClock 86390 86390 86390; mkClock 86395 86395 86395;
              mkClock 86401 86401 86401] in
   clock_sound 86390 self cs
   /\ recorded_calls self cs = [86390; 86401]
   /\ ~ rolling_windows_respected 1 1 (recorded_calls self cs))
  /\ (let self := RateLimiter_init 6 2 86000 in
      let cs := steady_calls 86000 200 4 in
      clock_sound 86000 self cs
      /\ recorded_calls self cs = [86000; 86200; 86400; 86600]
      /\ ~ rolling_windows_respected 6 2 (recorded_calls self cs)).
Proof.
  split; intros self cs.
  - split; [vm_compute; repeat split; discriminate|].
    split; [reflexivity|].
    intros H. destruct (H 86401) as [Hmin _]. vm_compute in Hmin. now apply Hmin.
  - split; [vm_compute; repeat split; discriminate|].
    split; [reflexivity|].
    intros H. destruct (H 86600) as [_ Hday]. vm_compute in Hday. now apply Hday.
Qed.

(** C9 fails on the code. The global limiter (6 a minute, 800 a day) records
    800 calls made 11 seconds apart; the next call finds the daily sequence
    full, sleeps the 77600 seconds to midnight, empties both sequences and
    returns at line 52 without appending its time stamp. *)
Lemma acquire_at_daily_capacity_not_recorded :
  let self := acquire_all (rate_limiter_default 0) (steady_calls 0 11 800) in
  all_recorded (rate_limiter_default 0) (steady_calls 0 11 800) = true
  /\ len (calls_per_day self) = 800
  /\ wait_if_needed self (mkClock 8800 8800 8800) =
     ({| max_calls_per_minute := 6; max_calls_per_day := 800;
         calls_per_minute := []; calls_per_day := [];
         last_reset_time := 0 |},
      BlockedUntilMidnight 77600).
Proof. vm_compute. repeat split. Qed.

(** ** Character classes *)

Ltac by_cases_on_char c :=
  destruct c as [[] [] [] [] [] [] [] []]; vm_compute; intros; congruence.

Lemma is_file_word (c : ascii) : is_file c = true -> is_word_char c = true.
Proof. by_cases_on_char c. Qed.

Lemma is_rank_word (c : ascii) : is_rank c = true -> is_word_char c = true.
Proof. by_cases_on_char c. Qed.

Lemma is_promotion_word (c : ascii) : is_promotion c = true -> is_word_char c = true.
Proof. by_cases_on_char c. Qed.

Lemma isspace_lower_char (c : ascii) : isspace (lower_char c) = isspace c.
Proof. by_cases_on_char c. Qed.

Lemma lower_char_idem (c : ascii) : lower_char (lower_char c) = lower_char c.
Proof. by_cases_on_char c. Qed.

(** ** Cleaning a text twice *)

Lemma lstrip_app_nonspace (u v : text) (c : ascii) :
  isspace c = false -> lstrip (u ++ c :: v) = lstrip u ++ c :: v.
Proof.
  intros Hc. induction u as [|d u IH]; simpl.
  - rewrite Hc. reflexivity.
  - destruct (isspace d); [exact IH|reflexivity].
Qed.

(** A text stripped on the left is empty or starts with a character that is
    not white space. *)
Lemma lstrip_head (s : text) :
  lstrip s = [] \/ exists c r, lstrip s = c :: r /\ isspace c = false.
Proof.
  induction s as [|d s IH]; simpl; [now left|].
  destruct (isspace d) eqn:Hd; [exact IH|]. right. eauto.
Qed.

Lemma lstrip_nonspace (c : ascii) (r : text) :
  isspace c = false -> lstrip (c :: r) = c :: r.
Proof. intros Hc. simpl. rewrite Hc. reflexivity. Qed.

Lemma lstrip_idem (s : text) : lstrip (lstrip s) = lstrip s.
Proof.
  destruct (lstrip_head s) as [->|(c & r & -> & Hc)]; [reflexivity|].
  now apply lstrip_nonspace.
Qed.

Lemma strip_idem (s : text) : strip (strip s) = strip s.
Proof.
  unfold strip, rstrip.
  destruct (lstrip_head s) as [->|(c & r & -> & Hc)]; [reflexivity|].
  assert (E : lstrip (rev (c :: r)) = lstrip (rev r) ++ [c])
    by (cbn [rev]; now apply lstrip_app_nonspace).
  rewrite E, rev_app_distr. cbn [rev app].
  rewrite lstrip_nonspace by exact Hc.
  cbn [rev]. rewrite rev_involutive, lstrip_app_nonspace by exact Hc.
  rewrite lstrip_idem, rev_app_distr. reflexivity.
Qed.

Lemma lstrip_lower (s : text) : lstrip (lower s) = lower (lstrip s).
Proof.
  induction s as [|c s IH]; simpl; [reflexivity|].
  rewrite isspace_lower_char. destruct (isspace c); [exact IH|reflexivity].
Qed.

Lemma lower_rev (s : text) : lower (rev s) = rev (lower s).
Proof. apply map_rev. Qed.

Lemma strip_lower (s : text) : strip (lower s) = lower (strip s).
Proof.
  unfold strip, rstrip.
  rewrite lstrip_lower, <- lower_rev, lstrip_lower, <- lower_rev. reflexivity.
Qed.

Lemma lower_idem (s : text) : lower (lower s) = lower s.
Proof.
  unfold lower. rewrite map_map. apply map_ext. apply lower_char_idem.
Qed.

(** Text that was cleaned ([strip], then [lower]) is not changed by being
    cleaned again. *)
Lemma clean_idem (l : text) : lower (strip (lower (strip l))) = lower (strip l).
Proof. rewrite strip_lower, strip_idem, lower_idem. reflexivity. Qed.

(** ** Fields of a text *)

Section Fields.
Variable is_sep : ascii -> bool.

Lemma fields_from_unbroken (w : text) :
  forall (word rest : text),
    unbroken is_sep w = true ->
    fields_from is_sep word (w ++ rest) = fields_from is_sep (rev w ++ word) rest.
Proof.
  induction w as [|c w IH]; intros word rest Hw; simpl in *; [reflexivity|].
  apply andb_prop in Hw as [Hc Hw].
  apply negb_true_iff in Hc. rewrite Hc, IH by exact Hw.
  rewrite <- app_assoc. reflexivity.
Qed.

Lemma fields_from_break (c : ascii) (r : text) :
  is_sep c = true -> fields_from is_sep [] (c :: r) = fields_from is_sep [] r.
Proof. intros Hc. simpl. rewrite Hc. reflexivity. Qed.

(** A leading run up to a break is the first field. *)
Lemma fields_from_first (w rest : text) :
  w <> [] -> unbroken is_sep w = true -> at_break is_sep rest = true ->
  fields_from is_sep [] (w ++ rest) = w :: fields_from is_sep [] rest.
Proof.
  intros Hne Hw Hrest. rewrite fields_from_unbroken by exact Hw.
  rewrite app_nil_r.
  assert (Hrev : rev w <> []).
  { intros E. apply Hne. rewrite <- (rev_involutive w), E. reflexivity. }
  destruct rest as [|x r]; simpl in *.
  - destruct (rev w) eqn:E; [contradiction|]. rewrite <- E, rev_involutive. reflexivity.
  - rewrite Hrest. destruct (rev w) eqn:E; [contradiction|].
    rewrite <- E, rev_involutive. reflexivity.
Qed.

(** Every text splits into a leading run and a rest that is at a break. *)
Lemma leading_run (s : text) :
  exists w rest, s = w ++ rest /\ unbroken is_sep w = true /\ at_break is_sep rest = true
                 /\ (at_break is_sep s = false -> w <> []).
Proof.
  induction s as [|c s (w & rest & -> & Hw & Hrest & _)].
  - exists [], []. simpl. repeat (split; [reflexivity|]). discriminate.
  - destruct (is_sep c) eqn:Hc.
    + exists [], (c :: w ++ rest). simpl. rewrite Hc.
      repeat (split; [reflexivity|]). discriminate.
    + exists (c :: w), rest. simpl. rewrite Hc, Hw.
      repeat (split; [first [reflexivity|assumption]|]). intros _. discriminate.
Qed.

(** The leading run of a text is determined. *)
Lemma leading_run_unique (w1 : text) :
  forall (w2 rest1 rest2 : text),
    w1 ++ rest1 = w2 ++ rest2 ->
    unbroken is_sep w1 = true -> unbroken is_sep w2 = true ->
    at_break is_sep rest1 = true -> at_break is_sep rest2 = true ->
    w1 = w2 /\ rest1 = rest2.
Proof.
  induction w1 as [|c w1 IH]; intros w2 rest1 rest2 E H1 H2 B1 B2.
  - destruct w2 as [|d w2]; [auto|]. simpl in *. subst rest1.
    simpl in B1. apply andb_prop in H2 as [Hd _]. rewrite B1 in Hd. discriminate.
  - destruct w2 as [|d w2]; simpl in *.
    + subst rest2. simpl in B2. apply andb_prop in H1 as [Hc _].
      rewrite B2 in Hc. discriminate.
    + injection E as -> E. apply andb_prop in H1 as [_ H1].
      apply andb_prop in H2 as [_ H2].
      destruct (IH w2 rest1 rest2 E H1 H2 B1 B2) as [-> ->]. auto.
Qed.

End Fields.

(** ** The pattern scan finds the words that are move tokens *)

Lemma at_break_non_word (s : text) :
  at_break non_word s = negb (word_before (hd_error s)).
Proof. destruct s; reflexivity. Qed.

Lemma square_pair_word (f1 r1 f2 r2 : ascii) :
  is_file f1 && is_rank r1 && is_file f2 && is_rank r2 = true ->
  is_word_char f1 = true /\ is_word_char r1 = true
  /\ is_word_char f2 = true /\ is_word_char r2 = true.
Proof.
  intros H. do 3 (apply andb_prop in H as [H ?]).
  auto using is_file_word, is_rank_word.
Qed.

Lemma is_uci_token_unbroken (m : text) :
  is_uci_token m = true -> unbroken non_word m = true /\ m <> [].
Proof.
  unfold is_uci_token, unbroken, non_word.
  destruct m as [|f1 [|r1 [|f2 [|r2 [|p [|x m]]]]]]; try discriminate; intros H.
  - apply square_pair_word in H as (H1 & H2 & H3 & H4).
    simpl. rewrite H1, H2, H3, H4. split; [reflexivity|discriminate].
  - apply andb_prop in H as [H Hp]. apply is_promotion_word in Hp.
    apply square_pair_word in H as (H1 & H2 & H3 & H4).
    simpl. rewrite H1, H2, H3, H4, Hp. split; [reflexivity|discriminate].
Qed.

Lemma match_uci_at_sound (prev : option ascii) (s m : text) :
  match_uci_at prev s = Some m ->
  word_before prev = false /\ is_uci_token m = true
  /\ exists tail, s = m ++ tail /\ at_break non_word tail = true.
Proof.
  unfold match_uci_at.
  destruct (word_boundary prev s) eqn:Hb; [|discriminate].
  destruct s as [|f1 [|r1 [|f2 [|r2 rest]]]]; try discriminate.
  destruct (is_file f1 && is_rank r1 && is_file f2 && is_rank r2) eqn:Hc; [|discriminate].
  destruct (square_pair_word _ _ _ _ Hc) as (Hf1 & _ & _ & Hr2).
  assert (Hprev : word_before prev = false).
  { unfold word_boundary in Hb. simpl in Hb. rewrite Hf1 in Hb.
    destruct (word_before prev); [discriminate|reflexivity]. }
  assert (Hfour : word_boundary (Some r2) rest = true ->
                  at_break non_word rest = true).
  { unfold word_boundary. simpl. rewrite Hr2, at_break_non_word.
    destruct (word_before (hd_error rest)); [discriminate|reflexivity]. }
  destruct rest as [|p rest'].
  - destruct (word_boundary (Some r2) []) eqn:Hw; [|discriminate].
    intros E; injection E as <-. split; [exact Hprev|]. split.
    + simpl. exact Hc.
    + exists []. split; reflexivity.
  - destruct (is_promotion p && word_boundary (Some p) rest') eqn:Hp.
    + intros E; injection E as <-. apply andb_prop in Hp as [Hp Hw].
      split; [exact Hprev|]. split.
      * simpl. rewrite Hc, Hp. reflexivity.
      * exists rest'. split; [reflexivity|].
        unfold word_boundary in Hw. simpl in Hw.
        rewrite (is_promotion_word _ Hp) in Hw. rewrite at_break_non_word.
        destruct (word_before (hd_error rest')); [discriminate|reflexivity].
    + destruct (word_boundary (Some r2) (p :: rest')) eqn:Hw; [|discriminate].
      intros E; injection E as <-. split; [exact Hprev|]. split.
      * simpl. exact Hc.
      * exists (p :: rest'). split; [reflexivity|]. apply Hfour. reflexivity.
Qed.

Lemma match_uci_at_complete (prev : option ascii) (m tail : text) :
  word_before prev = false -> is_uci_token m = true ->
  at_break non_word tail = true ->
  match_uci_at prev (m ++ tail) = Some m.
Proof.
  intros Hprev Htok Htail. unfold match_uci_at, word_boundary.
  rewrite at_break_non_word in Htail. apply negb_true_iff in Htail.
  destruct m as [|f1 [|r1 [|f2 [|r2 [|p [|x m]]]]]]; try discriminate;
    cbn [is_uci_token] in Htok.
  - destruct (square_pair_word _ _ _ _ Htok) as (Hf1 & _ & _ & Hr2).
    cbn [app hd_error word_before]. rewrite Hprev, Hf1, Htok. cbn [xorb].
    destruct tail as [|x tail]; cbn [hd_error word_before] in *.
    + rewrite Hr2. reflexivity.
    + rewrite Hr2, Htail. cbn [xorb].
      destruct (is_promotion x) eqn:Hx; [|reflexivity].
      apply is_promotion_word in Hx. congruence.
  - apply andb_prop in Htok as [Hc Hp].
    destruct (square_pair_word _ _ _ _ Hc) as (Hf1 & _ & _ & Hr2).
    cbn [app hd_error word_before]. rewrite Hprev, Hf1, Hc, Hp. cbn [xorb].
    rewrite (is_promotion_word p Hp), Htail. reflexivity.
Qed.

Lemma match_uci_at_non_word (prev : option ascii) (c : ascii) (r : text) :
  non_word c = true -> match_uci_at prev (c :: r) = None.
Proof.
  intros Hc. destruct (match_uci_at prev (c :: r)) as [m|] eqn:E; [|reflexivity].
  apply match_uci_at_sound in E as (_ & Htok & tail & Hs & _).
  apply is_uci_token_unbroken in Htok as [Hm Hne].
  destruct m as [|d m]; [contradiction|]. injection Hs as <- _.
  simpl in Hm. rewrite Hc in Hm. discriminate.
Qed.

(** Passing over the rest of a match. *)
Lemma findall_from_skip (u : text) :
  forall (prev : option ascii) (rest : text),
  exists prev', findall_from prev (length u) (u ++ rest) = findall_from prev' 0 rest.
Proof.
  induction u as [|c u IH]; intros prev rest; simpl.
  - exists prev. destruct rest; reflexivity.
  - apply IH.
Qed.

(** Inside a word no match starts. *)
Lemma findall_from_inside (u : text) :
  forall (prev : option ascii) (rest : text),
    word_before prev = true -> unbroken non_word u = true ->
    exists prev', findall_from prev 0 (u ++ rest) = findall_from prev' 0 rest
                  /\ word_before prev' = true.
Proof.
  induction u as [|c u IH]; intros prev rest Hprev Hu; simpl in *.
  - exists prev. split; [reflexivity|exact Hprev].
  - apply andb_prop in Hu as [Hc Hu]. unfold non_word in Hc.
    apply negb_true_iff, negb_false_iff in Hc.
    assert (E : match_uci_at prev (c :: u ++ rest) = None).
    { unfold match_uci_at, word_boundary. simpl. rewrite Hprev, Hc. reflexivity. }
    rewrite E. apply IH; [exact Hc|exact Hu].
Qed.

Lemma findall_from_words (n : nat) :
  forall (s : text) (prev : option ascii),
    (length s <= n)%nat ->
    (word_before prev = true -> at_break non_word s = true) ->
    findall_from prev 0 s = filter is_uci_token (words s).
Proof.
  induction n as [|n IH]; intros s prev Hlen Hprev.
  - destruct s; [reflexivity|simpl in Hlen; lia].
  - destruct s as [|c r]; [reflexivity|].
    destruct (non_word c) eqn:Hc.
    + unfold words. rewrite fields_from_break by exact Hc.
      simpl findall_from. rewrite match_uci_at_non_word by exact Hc.
      apply IH; [simpl in Hlen; lia|].
      simpl. unfold non_word in Hc. apply negb_true_iff in Hc. rewrite Hc. discriminate.
    + assert (Hp : word_before prev = false).
      { destruct (word_before prev); [|reflexivity].
        specialize (Hprev eq_refl). simpl in Hprev. congruence. }
      destruct (leading_run non_word (c :: r)) as (w & rest & Hs & Hw & Hrest & Hne).
      specialize (Hne Hc).
      destruct w as [|c' w']; [contradiction|]. injection Hs as <- ->.
      unfold words. change (c :: w' ++ rest) with ((c :: w') ++ rest).
      rewrite (fields_from_first non_word (c :: w') rest) by (assumption || discriminate).
      cbn [app].
      assert (Hshort : (length rest <= n)%nat).
      { simpl in Hlen. rewrite length_app in Hlen. lia. }
      cbn [filter findall_from].
      destruct (is_uci_token (c :: w')) eqn:Htok.
      * pose proof (match_uci_at_complete prev (c :: w') rest Hp Htok Hrest) as E.
        cbn [app] in E. rewrite E.
        cbn [length]. rewrite Nat.sub_succ, Nat.sub_0_r.
        destruct (findall_from_skip w' (Some c) rest) as [prev' ->].
        f_equal. apply IH; [exact Hshort|]. intros _. exact Hrest.
      * destruct (match_uci_at prev (c :: w' ++ rest)) as [m|] eqn:E.
        -- exfalso. apply match_uci_at_sound in E as (_ & Hm & tail & Hs & Htail).
           apply is_uci_token_unbroken in Hm as Hu. destruct Hu as [Hu _].
           destruct (leading_run_unique non_word (c :: w') m rest tail Hs Hw Hu Hrest Htail)
             as [<- _]. congruence.
        -- simpl in Hw. apply andb_prop in Hw as [_ Hw'].
           destruct (findall_from_inside w' (Some c) rest) as (prev' & -> & _).
           ++ simpl. unfold non_word in Hc. now apply negb_false_iff in Hc.
           ++ exact Hw'.
           ++ apply IH; [exact Hshort|]. intros _. exact Hrest.
Qed.

(** [re.findall] with the move pattern returns the words of the text that
    are move tokens, in order. *)
Lemma findall_uci_words (s : text) :
  findall_uci s = filter is_uci_token (words s).
Proof.
  unfold findall_uci. apply (findall_from_words (length s)); [lia|]. discriminate.
Qed.

(** ** Move extraction *)

Lemma fields_from_nonempty (is_sep : ascii -> bool) (s : text) :
  forall (word w : text), In w (fields_from is_sep word s) -> w <> [].
Proof.
  assert (Hrev : forall (c : ascii) (word : text), rev (c :: word) <> []).
  { intros c word E. apply (f_equal (@length ascii)) in E.
    rewrite length_rev in E. discriminate. }
  induction s as [|c r IH]; intros word w; simpl.
  - destruct word as [|d word]; [contradiction|].
    intros [<-|[]]. apply Hrev.
  - destruct (is_sep c).
    + destruct word as [|d word]; [apply IH|].
      intros [<-|Hin]; [apply Hrev|exact (IH _ _ Hin)].
    + apply IH.
Qed.

Section ExtractionProperties.
Context {Board Move : Type} {engine : RulesEngine Board Move}.

Lemma move_in_In (move : Move) (legal : list Move) :
  move_in move legal = true <-> In move legal.
Proof.
  unfold move_in. rewrite existsb_exists. split.
  - intros (x & Hx & E). apply move_eqb_eq in E. now subst.
  - intros Hin. exists move. split; [exact Hin|]. now apply move_eqb_eq.
Qed.

Lemma first_legal_match_find (matches : list text) (legal : list Move) :
  first_legal_match matches legal = find (legal_text legal) matches.
Proof.
  induction matches as [|m rest IH]; simpl; [reflexivity|].
  unfold legal_text at 1. destruct (from_uci m) as [move|]; [|exact IH].
  destruct (move_in move legal); [reflexivity|exact IH].
Qed.

Lemma find_filter {A} (p q : A -> bool) (l : list A) :
  find p (filter q l) = find (fun x => q x && p x) l.
Proof.
  induction l as [|x l IH]; simpl; [reflexivity|].
  destruct (q x); simpl; [|exact IH]. destruct (p x); [reflexivity|exact IH].
Qed.


End ExtractionProperties.

(** Replies as the remote agent gives them: the first legal token wins, and
    an illegal token before it is passed over. *)
Example extract_examples :
  let extracted := _extract_move_from_response (engine := scripted []) in
  extracted (txt "I play E2E4!") [txt "e2e4"] = Some (txt "e2e4")
  /\ extracted (txt "e2e4 or e7e5") [txt "e7e5"] = Some (txt "e7e5")
  /\ extracted (txt "e7e5") [txt "e2e4"] = None.
Proof. vm_compute. repeat split. Qed.



(** ** The game session *)

Section GameProperties.
Context {Board Move : Type} {engine : RulesEngine Board Move}.

(** What one call of [_validate_and_make_move] does, by cases on whether the
    cleaned text is a legal move. *)
Lemma validate_and_make_move_cases (self : ChessGame) (gs : GameState) (m : text) :
  (legal_text (legal_moves (board self)) (lower (strip m)) = false
   /\ _validate_and_make_move self gs m = (false, self, gs))
  \/ (legal_text (legal_moves (board self)) (lower (strip m)) = true
      /\ exists move self',
          from_uci (lower (strip m)) = Some move
          /\ _validate_and_make_move self gs m = (true, self', count_move gs)
          /\ board self' = push (board self) move
          /\ move_history self' = move_history self ++ [lower (strip m)]
          /\ game_mode self' = game_mode self
          /\ max_consecutive_errors self' = max_consecutive_errors self
          /\ white_player self' = white_player self
          /\ black_player self' = black_player self).
Proof.
  unfold _validate_and_make_move, legal_text.
  destruct (from_uci (lower (strip m))) as [move|]; [|left; auto].
  destruct (move_in move (legal_moves (board self))); [|left; auto].
  right. split; [reflexivity|]. eexists _, _. simpl.
  repeat (split; [reflexivity|]). reflexivity.
Qed.

Lemma apply_all_invariant (moves : list text) :
  forall (self : ChessGame) (gs : GameState),
    len (move_history self) = move_count gs ->
    len (move_history (fst (apply_all self gs moves)))
    = move_count (snd (apply_all self gs moves)).
Proof.
  induction moves as [|m rest IH]; intros self gs Hinv; [exact Hinv|].
  simpl.
  destruct (validate_and_make_move_cases self gs m)
    as [(_ & ->) | (_ & move & self' & _ & -> & _ & Hhist & _)].
  - apply IH. exact Hinv.
  - apply IH. rewrite Hhist, len_app. simpl. change (len [lower (strip m)]) with 1. lia.
Qed.

(** C3. A move is rejected exactly when its cleaned text does not parse or
    is not a legal move, and a rejected move leaves the game (the board and
    the move history) and the game state (the move counter, the error
    counter and the termination record) as they were. *)
Theorem rejected_move_changes_nothing (self self' : ChessGame) (gs gs' : GameState)
    (m : text) :
  _validate_and_make_move self gs m = (false, self', gs') ->
  legal_text (legal_moves (board self)) (lower (strip m)) = false
  /\ self' = self /\ gs' = gs
  /\ board self' = board self
  /\ move_count gs' = move_count gs
  /\ move_history self' = move_history self
  /\ consecutive_errors gs' = consecutive_errors gs.
Proof.
  intros Hrej.
  destruct (validate_and_make_move_cases self gs m)
    as [(Hill & E) | (_ & move & self1 & _ & E & _)];
    rewrite E in Hrej; [|discriminate].
  injection Hrej as <- <-. repeat split; auto.
Qed.

(** C5. [_check_game_over] reports the first of checkmate, stalemate,
    insufficient material, fivefold repetition, seventy-five moves and
    claimable draw that holds, in this order, and nothing when none holds;
    a checkmate is reported as such whatever else holds. *)
Theorem check_game_over_first_condition (self : ChessGame) (gs : GameState) :
  _check_game_over self gs =
  match first_reason (terminal_conditions (board self)) with
  | Some reason => (true, terminate_game gs reason)
  | None => (false, gs)
  end
  /\ (is_checkmate (board self) = true ->
      exists winner,
        _check_game_over self gs
        = (true, terminate_game gs (txt "CHECKMATE! " ++ winner ++ txt " wins!"))).
Proof.
  unfold _check_game_over, first_reason, terminal_conditions. split.
  - cbn [find fst snd option_map].
    destruct (is_checkmate (board self)); [reflexivity|].
    destruct (is_stalemate (board self)); [reflexivity|].
    destruct (is_insufficient_material (board self)); [reflexivity|].
    destruct (is_fivefold_repetition (board self)); [reflexivity|].
    destruct (is_seventyfive_moves (board self)); [reflexivity|].
    destruct (can_claim_draw (board self)); reflexivity.
  - intros ->. eexists. reflexivity.
Qed.

End GameProperties.

(** ** The players *)

Lemma wait_if_needed_min_of_empty (self self' : RateLimiter) (c : clock) :
  wait_if_needed self c = (self', MinOfEmpty) -> max_calls_per_minute self <= 0.
Proof.
  unfold wait_if_needed.
  destruct (date (now c) >? date (last_reset_time self)); cbv zeta;
    (destruct (_ >=? max_calls_per_day self); [discriminate|]);
    (destruct (len (newer_than (current_time c - 60) (calls_per_minute self))
               >=? max_calls_per_minute self) eqn:Em; [|discriminate]);
    (destruct (list_min (newer_than (current_time c - 60) (calls_per_minute self)))
       as [oldest|] eqn:Eo;
     [destruct (60 - (current_time c - oldest) + 5 >? 0); discriminate|]);
    intros _; apply list_min_None in Eo; rewrite Eo in Em;
    change (len []) with 0 in Em; lia.
Qed.

Section PlayerProperties.
Context {Board Move : Type} {engine : RulesEngine Board Move}.
Variable w : world.

Lemma posts_sleep (seconds : Z) (st : io) : posts (sleep seconds st) = posts st.
Proof. reflexivity. Qed.

Lemma posts_acquire (st : io) : posts (fst (acquire w st)) = posts st.
Proof. unfold acquire. destruct (wait_if_needed _ _). reflexivity. Qed.

Lemma extract_legal (content : text) (legal : list Move) (m : text) :
  _extract_move_from_response content legal = Some m -> legal_text legal m = true.
Proof.
  unfold _extract_move_from_response. rewrite first_legal_match_find.
  destruct (find _ _) as [m'|] eqn:E.
  - intros H; injection H as <-. now apply find_some in E.
  - destruct (split _) as [|[|c fw] rest]; try discriminate.
    unfold legal_text. destruct (from_uci (c :: fw)) as [move|] eqn:Hparse; [|discriminate].
    destruct (move_in move legal) eqn:Hin; [|discriminate].
    intros H; injection H as <-. rewrite Hparse. exact Hin.
Qed.

Lemma legal_text_In (legal : list Move) (m : text) :
  legal_text legal m = true <-> exists move, from_uci m = Some move /\ In move legal.
Proof.
  unfold legal_text. split.
  - destruct (from_uci m) as [move|]; [|discriminate].
    intros Hin. exists move. split; [reflexivity|now apply move_in_In].
  - intros (move & -> & Hin). now apply move_in_In.
Qed.

(** A pass of the loop, by cases: it makes at most one request; it returns
    a move only if that move is legal; without legal moves it makes no
    request and returns nothing unless the limiter raised; and when its
    request fails it returns no move. *)
Lemma attempt_cases (board : Board) (retry_count : nat) (st : io) :
  let '(a, st') := attempt w board retry_count st in
  (posts st <= posts st' <= S (posts st))%nat
  /\ (forall m, a = Done (Return (Some m)) -> legal_text (legal_moves board) m = true)
  /\ (legal_moves board = [] ->
      st' = fst (acquire w st)
      /\ (a = Done (Return None)
          \/ (a = Failed 1 /\ raised (snd (acquire w st)) = true)))
  /\ (attempt_fails (legal_moves board) (replies w (posts st)) = true ->
      a = Done (Return None) \/ exists seconds, a = Failed seconds).
Proof.
  unfold attempt. pose proof (posts_acquire st) as Hacq.
  destruct (acquire w st) as [st1 r]. cbn [fst snd] in *.
  destruct (raised r).
  { split; [lia|]. split; [discriminate|]. split; [auto|]. eauto. }
  destruct (legal_moves board) as [|mv legal] eqn:Hlegal.
  { split; [lia|]. split; [discriminate|]. split; [auto|]. auto. }
  unfold post. rewrite Hacq.
  assert (Hposts : forall a,
             (posts st <= posts (mkIo (limiter st1) (acquires st1) (S (posts st))
                                      (sleeps st1) a) <= S (posts st))%nat)
    by (intros; cbn [posts]; lia).
  destruct (replies w (posts st)) as [| | |status_code result]; cbn [attempt_fails];
    [ split; [apply Hposts|]; split; [discriminate|]; split; [discriminate|]; eauto
    | split; [apply Hposts|]; split; [discriminate|]; split; [discriminate|]; eauto
    | split; [apply Hposts|]; split; [discriminate|]; split; discriminate
    | ].
  destruct (negb (status_code =? 200)); cbn [orb];
    [split; [apply Hposts|]; split; [discriminate|]; split; [discriminate|]; eauto|].
  destruct result as [|content|];
    [ split; [apply Hposts|]; split; [discriminate|]; split; [discriminate|]; eauto
    | 
    | split; [apply Hposts|]; split; [discriminate|]; split; [discriminate|]; eauto ].
  destruct (_extract_move_from_response content (mv :: legal)) as [move_str|] eqn:E.
  - split; [apply Hposts|]. split; [|split; discriminate].
    intros m H; injection H as <-. eapply extract_legal; eauto.
  - split; [apply Hposts|]. split; [discriminate|]. split; [discriminate|]. eauto.
Qed.

(** The moves the attempts of the remote player return are legal. *)
Lemma get_move_attempts_legal (board : Board) (remaining : nat) :
  forall (st st' : io) (m : text),
    get_move_attempts w board remaining st = (Return (Some m), st') ->
    legal_text (legal_moves board) m = true.
Proof.
  induction remaining as [|n IH]; intros st st' m; cbn [get_move_attempts];
    [discriminate|].
  destruct (attempt w board (max_retries - S n) st) as [[r|seconds] st1] eqn:E.
  - intros H; injection H as -> ->.
    pose proof (attempt_cases board (max_retries - S n) st) as Hc.
    rewrite E in Hc. destruct Hc as (_ & Hlegal & _). now apply Hlegal.
  - apply IH.
Qed.

(** The moves the console player returns are legal, are clean text, and
    leave the game state alone. *)
Lemma human_get_move_loop_legal (legal : list Move) (lines : list console_event) :
  forall (gs gs' : GameState) (m : text) (rest : list console_event),
    human_get_move_loop legal lines gs = (Some m, gs', rest) ->
    legal_text legal m = true /\ gs' = gs /\ exists l, m = lower (strip l).
Proof.
  induction lines as [|e lines IH]; intros gs gs' m rest;
    cbn [human_get_move_loop]; [discriminate|].
  destruct e as [l|]; [|discriminate].
  destruct (text_eqb (lower (strip l)) (txt "quit")); [discriminate|].
  destruct (text_eqb (lower (strip l)) (txt "help")); [apply IH|].
  destruct (text_eqb (lower (strip l)) (txt "legal")); [apply IH|].
  destruct (text_eqb (lower (strip l)) []); [apply IH|].
  unfold legal_text.
  destruct (from_uci (lower (strip l))) as [move|] eqn:Hparse; [|apply IH].
  destruct (move_in move legal) eqn:Hin; [|apply IH].
  intros H; injection H as <- <- _. rewrite Hparse. eauto.
Qed.

(** When the console player returns no move, it has terminated the game:
    the record was written once more. *)
Lemma human_get_move_loop_none (legal : list Move) (lines : list console_event) :
  forall (gs gs' : GameState) (rest : list console_event),
    human_get_move_loop legal lines gs = (None, gs', rest) ->
    exists reason, gs' = terminate_game gs reason.
Proof.
  induction lines as [|e lines IH]; intros gs gs' rest; cbn [human_get_move_loop].
  - intros H; injection H as <- _. eauto.
  - destruct e as [l|]; [|intros H; injection H as <- _; eauto].
    destruct (text_eqb (lower (strip l)) (txt "quit"));
      [intros H; injection H as <- _; eauto|].
    destruct (text_eqb (lower (strip l)) (txt "help")); [apply IH|].
    destruct (text_eqb (lower (strip l)) (txt "legal")); [apply IH|].
    destruct (text_eqb (lower (strip l)) []); [apply IH|].
    destruct (from_uci (lower (strip l))) as [move|]; [|apply IH].
    destruct (move_in move legal); [discriminate|apply IH].
Qed.

Lemma get_move_attempts_S (board : Board) (n : nat) (st : io) :
  get_move_attempts w board (S n) st =
  match attempt w board (max_retries - S n) st with
  | (Done r, st') => (r, st')
  | (Failed seconds, st') =>
      get_move_attempts w board n
        (if (S (max_retries - S n) <? max_retries)%nat then sleep seconds st' else st')
  end.
Proof. reflexivity. Qed.

Lemma get_move_attempts_posts (board : Board) (remaining : nat) :
  forall st : io,
    (posts st <= posts (snd (get_move_attempts w board remaining st))
     <= posts st + remaining)%nat.
Proof.
  induction remaining as [|n IH]; intros st; cbn [get_move_attempts snd]; [lia|].
  pose proof (attempt_cases board (max_retries - S n) st) as Hc.
  destruct (attempt w board (max_retries - S n) st) as [[r|seconds] st1].
  - cbn [snd]. lia.
  - destruct Hc as (Hp & _).
    match goal with
    | |- context [get_move_attempts w board n ?s] =>
        specialize (IH s); assert (Hs : posts s = posts st1)
          by (destruct (S (max_retries - S n) <? max_retries)%nat; reflexivity)
    end.
    lia.
Qed.

Lemma get_move_attempts_no_legal_moves (board : Board) (remaining : nat) :
  legal_moves board = [] ->
  forall st : io,
    fst (get_move_attempts w board remaining st) = Return None
    /\ posts (snd (get_move_attempts w board remaining st)) = posts st.
Proof.
  intros Hnone. induction remaining as [|n IH]; intros st;
    cbn [get_move_attempts]; [auto|].
  pose proof (attempt_cases board (max_retries - S n) st) as Hc.
  destruct (attempt w board (max_retries - S n) st) as [[r|seconds] st1].
  - destruct Hc as (_ & _ & Hc & _). destruct (Hc Hnone) as (-> & [E|(E & _)]);
      [|discriminate]. injection E as ->. split; [reflexivity|apply posts_acquire].
  - destruct Hc as (_ & _ & Hc & _). destruct (Hc Hnone) as (-> & _).
    match goal with
    | |- context [get_move_attempts w board n ?s] =>
        destruct (IH s) as [-> ->];
          assert (Hs : posts s = posts (fst (acquire w st)))
          by (destruct (S (max_retries - S n) <? max_retries)%nat; reflexivity)
    end.
    rewrite Hs. split; [reflexivity|apply posts_acquire].
Qed.

Lemma get_move_attempts_exhausted (board : Board) (remaining : nat) :
  forall st : io,
    (forall k, (posts st <= k < posts st + remaining)%nat ->
               attempt_fails (legal_moves board) (replies w k) = true) ->
    fst (get_move_attempts w board remaining st) = Return None.
Proof.
  induction remaining as [|n IH]; intros st Hfail; cbn [get_move_attempts];
    [reflexivity|].
  pose proof (attempt_cases board (max_retries - S n) st) as Hc.
  destruct (attempt w board (max_retries - S n) st) as [[r|seconds] st1].
  - destruct Hc as (_ & _ & _ & Hc).
    destruct Hc as [E|[s E]]; [apply Hfail; lia| |discriminate].
    injection E as ->. reflexivity.
  - destruct Hc as (Hp & _). apply IH. intros k Hk. apply Hfail.
    assert (Hs : posts (if (S (max_retries - S n) <? max_retries)%nat
                        then sleep seconds st1 else st1) = posts st1)
      by (destruct (S (max_retries - S n) <? max_retries)%nat; reflexivity).
    lia.
Qed.

(** C6. [get_move] of the remote player makes at most 3 requests. When
    the side to move has no legal move it returns nothing without making
    any, and, the limiter being set up with a positive per-minute
    capacity, right after its first call of the limiter. When each of its
    3 requests fails (time-out, transport error, bad status, no legal move
    in the reply) it returns nothing: it does not raise. *)
Theorem ai_get_move_bounded_retries (board : Board) (st : io) :
  (posts (snd (ai_get_move w board st)) <= posts st + 3)%nat
  /\ (legal_moves board = [] ->
      fst (ai_get_move w board st) = Return None
      /\ posts (snd (ai_get_move w board st)) = posts st)
  /\ (legal_moves board = [] -> 1 <= max_calls_per_minute (limiter st) ->
      ai_get_move w board st = (Return None, fst (acquire w st)))
  /\ ((forall k, (posts st <= k < posts st + 3)%nat ->
                 attempt_fails (legal_moves board) (replies w k) = true) ->
      fst (ai_get_move w board st) = Return None).
Proof.
  unfold ai_get_move. split; [apply get_move_attempts_posts|].
  split; [intros Hnone; now apply get_move_attempts_no_legal_moves|].
  split; [|apply get_move_attempts_exhausted].
  intros Hnone Hcap.
  change (get_move_attempts w board max_retries st)
    with (get_move_attempts w board (S 2) st).
  rewrite get_move_attempts_S.
  pose proof (attempt_cases board (max_retries - 3) st) as Hc.
  destruct (attempt w board (max_retries - 3) st) as [a st1].
  destruct Hc as (_ & _ & Hc & _). destruct (Hc Hnone) as (-> & [->|(_ & Hraised)]);
    [reflexivity|].
  exfalso. unfold acquire in Hraised.
  destruct (wait_if_needed (limiter st) (clocks w (acquires st))) as [l r] eqn:E.
  cbn [snd] in Hraised. destruct r; try discriminate.
  apply wait_if_needed_min_of_empty in E. lia.
Qed.

(** C10. A move returned by [get_move], of the remote player or of the
    console player, parses to a member of the legal moves of the board it
    was asked for. *)
Theorem get_move_returns_legal_move (p : player) (board : Board)
    (gs gs' : GameState) (st st' : io) (m : text) :
  get_move w p board gs st = (Return (Some m), gs', st') ->
  exists move, from_uci m = Some move /\ In move (legal_moves board).
Proof.
  intros Hget. apply legal_text_In. destruct p as [c|c]; simpl in Hget.
  - unfold ai_get_move in Hget.
    destruct (get_move_attempts w board max_retries st) as [r st1] eqn:E.
    injection Hget as -> _ _. eapply get_move_attempts_legal; eauto.
  - unfold human_get_move in Hget.
    destruct (human_get_move_loop (legal_moves board) (console st) gs)
      as [[r gs1] rest] eqn:E.
    injection Hget as -> _ _. eapply human_get_move_loop_legal; eauto.
Qed.

End PlayerProperties.

(** ** The game loop *)

Section LoopProperties.
Context {Board Move : Type} {engine : RulesEngine Board Move}.
Variable w : world.

Lemma check_game_over_cases (self : ChessGame) (gs : GameState) :
  _check_game_over self gs = (false, gs)
  \/ exists reason, _check_game_over self gs = (true, terminate_game gs reason).
Proof.
  unfold _check_game_over.
  repeat match goal with
         | |- context [if ?b then _ else _] => destruct b; [right; eauto|]
         end.
  now left.
Qed.

(** What [get_move] returns, and what it does to the game state. *)
Lemma get_move_cases (p : player) (board : Board) (gs : GameState) (st : io) :
  match get_move w p board gs st with
  | (KeyboardInterrupt, gs', _) => gs' = gs
  | (Return None, gs', _) =>
      (is_ai p = true /\ gs' = gs)
      \/ (is_ai p = false /\ exists reason, gs' = terminate_game gs reason)
  | (Return (Some m), gs', _) =>
      gs' = gs /\ legal_text (legal_moves board) m = true
      /\ (is_ai p = false -> lower (strip m) = m)
  end.
Proof.
  destruct p as [c|c]; cbn [get_move].
  - unfold ai_get_move.
    destruct (get_move_attempts w board max_retries st) as [r st'] eqn:E.
    destruct r as [[m|]|]; auto.
    split; [reflexivity|]. split; [|discriminate].
    eapply get_move_attempts_legal; eauto.
  - unfold human_get_move.
    destruct (human_get_move_loop (legal_moves board) (console st) gs)
      as [[r gs'] rest] eqn:E.
    destruct r as [m|].
    + apply human_get_move_loop_legal in E as (Hlegal & -> & l & ->).
      split; [reflexivity|]. split; [exact Hlegal|]. intros _. apply clean_idem.
    + right. split; [reflexivity|]. eapply human_get_move_loop_none; eauto.
Qed.

Lemma written_once_terminate (gs : GameState) (reason : text) :
  terminations gs = [] -> written_once (terminate_game gs reason).
Proof. intros H. split; [reflexivity|]. simpl. rewrite H. reflexivity. Qed.

Lemma running_intro (ceiling : Z) (self : ChessGame) (gs : GameState) (st : io) :
  should_terminate gs = false ->
  terminations gs = [] ->
  max_consecutive_errors self = ceiling ->
  0 <= consecutive_errors gs < ceiling ->
  (is_ai (current_player self) = false -> consecutive_errors gs = 0) ->
  running ceiling (mkSession self gs st).
Proof. intros. unfold running. cbn [state game]. auto. Qed.

(** One iteration of the game loop, started where the record is unwritten. *)
Lemma loop_body_step (ceiling : Z) (s : session) :
  2 <= ceiling -> running ceiling s ->
  match loop_body w s with
  | (Continue, s') =>
      running ceiling s'
      /\ ((move_count (state s') = move_count (state s) + 1
           /\ consecutive_errors (state s') = 0)
          \/ (move_count (state s') = move_count (state s)
              /\ consecutive_errors (state s') = consecutive_errors (state s) + 1))
  | (Break, s') =>
      written_once (state s') /\ move_count (state s') = move_count (state s)
  | (Raise, s') =>
      should_terminate (state s') = false /\ terminations (state s') = []
  end.
Proof.
  intros Hceil (Hrun & Hlog & Hmax & Herr & Hseat). unfold loop_body.
  destruct (check_game_over_cases (game s) (state s)) as [->|[reason ->]].
  2:{ cbn [state]. split; [now apply written_once_terminate|reflexivity]. }
  pose proof (get_move_cases (current_player (game s)) (board (game s))
                (state s) (outside s)) as Hget.
  destruct (get_move w (current_player (game s)) (board (game s)) (state s) (outside s))
    as [[r gs2] st2].
  destruct r as [[m|]|].
  - (* a move was returned *)
    destruct Hget as (-> & Hlegal & Hclean).
    destruct (validate_and_make_move_cases (game s) (state s) m)
      as [(Hill & ->) | (_ & move & self' & _ & -> & _ & _ & _ & Hmax' & Hw & Hb)].
    + cbn [negb]. rewrite Hmax. cbn [count_error consecutive_errors].
      destruct (consecutive_errors (state s) + 1 >=? ceiling) eqn:Hge.
      * cbn [state]. split; [now apply written_once_terminate|reflexivity].
      * cbn [state game]. split; [|right; split; reflexivity].
        apply running_intro; cbn [count_error should_terminate terminations
                                    consecutive_errors]; try assumption; try lia.
        intros Hhuman. specialize (Hclean Hhuman). rewrite Hclean in Hill. congruence.
    + cbn [negb state game]. split; [|left; split; reflexivity].
      apply running_intro; cbn [count_move should_terminate terminations
                                  consecutive_errors]; try assumption; lia.
  - (* no move was returned *)
    rewrite Hmax. destruct Hget as [(Hai & ->)|(Hhuman & reason & ->)].
    + cbn [count_error consecutive_errors].
      destruct (consecutive_errors (state s) + 1 >=? ceiling) eqn:Hge.
      * cbn [state]. split; [now apply written_once_terminate|reflexivity].
      * rewrite Hai. cbn [state game]. split; [|right; split; reflexivity].
        apply running_intro; cbn [count_error should_terminate terminations
                                    consecutive_errors]; try assumption; try lia.
        intros Hhuman. congruence.
    + specialize (Hseat Hhuman).
      cbn [count_error terminate_game consecutive_errors]. rewrite Hseat.
      destruct (0 + 1 >=? ceiling) eqn:Hge; [lia|]. rewrite Hhuman.
      cbn [state]. split; [|reflexivity].
      split; [reflexivity|].
      cbn [count_error terminate_game terminations termination_reason].
      rewrite Hlog. reflexivity.
  - (* the remote player was interrupted *)
    subst gs2. cbn [state]. auto.
Qed.

(** Leaving the loop where the record is unwritten and the condition is
    false writes the record once: the move limit was reached. *)
Lemma after_loop_limit (ceiling max_moves : Z) (s : session) :
  running ceiling s ->
  negb (should_terminate (state s)) && (move_count (state s) <? max_moves) = false ->
  written_once (state (after_loop max_moves (Continue, s))).
Proof.
  intros (Hrun & Hlog & _) Hcond. rewrite Hrun in Hcond. cbn [negb andb] in Hcond.
  cbn [after_loop].
  destruct (move_count (state s) >=? max_moves) eqn:Hge; [|lia].
  cbn [state]. now apply written_once_terminate.
Qed.

(** However the loop is left, the record has been written exactly once
    when [play_game] is through. *)
Lemma play_loop_written_once (ceiling max_moves : Z) (fuel : nat) :
  2 <= ceiling ->
  forall (s : session) (ended : flow * session),
    running ceiling s ->
    play_loop w max_moves fuel s = Some ended ->
    written_once (state (after_loop max_moves ended)).
Proof.
  intros Hceil. induction fuel as [|fuel IH]; intros s ended Hrun; cbn [play_loop];
    [discriminate|].
  destruct (negb (should_terminate (state s)) && (move_count (state s) <? max_moves))
    eqn:Hcond.
  - pose proof (loop_body_step ceiling s Hceil Hrun) as Hstep.
    apply andb_prop in Hcond as [_ Hlt].
    destruct (loop_body w s) as [[| |] s'].
    + destruct Hstep as [Hrun' _]. now apply IH.
    + intros E; injection E as <-. destruct Hstep as [Honce Hcount].
      cbn [after_loop].
      destruct (move_count (state s') >=? max_moves) eqn:Hge; [lia|exact Honce].
    + intros E; injection E as <-. destruct Hstep as [_ Hlog].
      cbn [after_loop state]. now apply written_once_terminate.
  - intros E; injection E as <-. eapply after_loop_limit; eauto.
Qed.

(** The loop ends within the iterations that [iterations_left] counts. *)
Lemma play_loop_ends (ceiling max_moves : Z) (fuel : nat) :
  2 <= ceiling ->
  forall s : session,
    running ceiling s ->
    iterations_left max_moves ceiling s < Z.of_nat fuel ->
    exists ended, play_loop w max_moves fuel s = Some ended.
Proof.
  intros Hceil. induction fuel as [|fuel IH]; intros s Hrun Hleft.
  - exfalso. unfold iterations_left in Hleft. destruct Hrun as (_ & _ & _ & Herr & _).
    destruct (move_count (state s) <? max_moves) eqn:Hlt; [nia|lia].
  - cbn [play_loop].
    destruct (negb (should_terminate (state s)) && (move_count (state s) <? max_moves))
      eqn:Hcond; [|eauto].
    pose proof (loop_body_step ceiling s Hceil Hrun) as Hstep.
    apply andb_prop in Hcond as [_ Hlt].
    destruct (loop_body w s) as [[| |] s']; eauto.
    destruct Hstep as [Hrun' Hprogress]. apply IH; [exact Hrun'|].
    destruct Hrun as (_ & _ & _ & Herr & _).
    destruct Hrun' as (_ & _ & _ & Herr' & _).
    unfold iterations_left in *. rewrite Hlt in Hleft.
    destruct (move_count (state s') <? max_moves) eqn:Hlt';
      destruct Hprogress as [(Hm & He)|(Hm & He)]; nia.
Qed.

Lemma running_init (game_mode : mode) (human_color : color) (st0 : io) :
  running 3 (mkSession (ChessGame_init game_mode human_color) GameState_init st0).
Proof. apply running_intro; cbn; auto; lia. Qed.

(** C7. When a solicitation fails and brings the error counter to the
    ceiling, [play_game] ends at once with the record set and the reason
    naming the seat that failed, whatever the move limit (above the move
    counter) is. *)
Theorem error_ceiling_terminates (s : session) (max_moves : Z) (fuel : nat) :
  should_terminate (state s) = false ->
  move_count (state s) < max_moves ->
  fst (_check_game_over (game s) (state s)) = false ->
  fst (fst (get_move w (current_player (game s)) (board (game s))
              (state s) (outside s))) = Return None ->
  max_consecutive_errors (game s) <= consecutive_errors (state s) + 1 ->
  exists final,
    play_game w max_moves (S fuel) s = Some final
    /\ should_terminate (state final) = true
    /\ termination_reason (state final)
       = txt "Too many consecutive errors from " ++ name (current_player (game s))
    /\ move_count (state final) = move_count (state s).
Proof.
  intros Hrun Hlt Hover Hnone Hceil.
  unfold play_game. cbn [play_loop]. rewrite Hrun.
  destruct (move_count (state s) <? max_moves) eqn:Hlt'; [|lia]. cbn [negb andb].
  unfold loop_body.
  destruct (check_game_over_cases (game s) (state s)) as [E|[reason E]];
    rewrite E in *; [|discriminate].
  pose proof (get_move_cases (current_player (game s)) (board (game s))
                (state s) (outside s)) as Hget.
  destruct (get_move w (current_player (game s)) (board (game s)) (state s) (outside s))
    as [[r gs2] st2].
  cbn [fst] in Hnone. subst r.
  assert (Hkeep : consecutive_errors gs2 = consecutive_errors (state s)
                  /\ move_count gs2 = move_count (state s)).
  { destruct Hget as [(_ & ->)|(_ & reason & ->)]; auto. }
  destruct Hkeep as [Herr Hcount].
  cbn [count_error consecutive_errors]. rewrite Herr.
  destruct (consecutive_errors (state s) + 1 >=? max_consecutive_errors (game s))
    eqn:Hge; [|lia].
  cbn [option_map after_loop state terminate_game count_error move_count].
  rewrite Hcount.
  destruct (move_count (state s) >=? max_moves) eqn:Hge'; [lia|].
  eexists. split; [reflexivity|]. cbn. auto.
Qed.

(** An iteration of the loop keeps the history as long as the counter. *)
Lemma loop_body_history (s : session) :
  history_counted s -> history_counted (snd (loop_body w s)).
Proof.
  unfold history_counted, loop_body. intros Hinv.
  destruct (check_game_over_cases (game s) (state s)) as [->|[reason ->]];
    [|exact Hinv].
  pose proof (get_move_cases (current_player (game s)) (board (game s))
                (state s) (outside s)) as Hget.
  destruct (get_move w (current_player (game s)) (board (game s)) (state s) (outside s))
    as [[r gs2] st2].
  assert (Hcount : move_count gs2 = move_count (state s)).
  { destruct r as [[m|]|]; [now destruct Hget as [-> _]| |now subst].
    destruct Hget as [(_ & ->)|(_ & reason & ->)]; reflexivity. }
  destruct r as [[m|]|].
  - destruct (validate_and_make_move_cases (game s) gs2 m)
      as [(_ & ->) | (_ & move & self' & _ & -> & _ & Hhist & _)]; cbn [negb].
    + destruct (_ >=? _); cbn [snd game state]; cbn; lia.
    + cbn [snd game state]. rewrite Hhist, len_app.
      change (len [lower (strip m)]) with 1. cbn. lia.
  - destruct (_ >=? _); [cbn; lia|].
    destruct (is_ai (current_player (game s))); cbn; lia.
  - cbn. lia.
Qed.

Lemma play_loop_history (max_moves : Z) (fuel : nat) :
  forall (s : session) (ended : flow * session),
    history_counted s ->
    play_loop w max_moves fuel s = Some ended ->
    history_counted (snd ended).
Proof.
  induction fuel as [|fuel IH]; intros s ended Hinv; cbn [play_loop]; [discriminate|].
  destruct (negb (should_terminate (state s)) && (move_count (state s) <? max_moves)).
  - pose proof (loop_body_history s Hinv) as Hstep.
    destruct (loop_body w s) as [[| |] s']; cbn [snd] in Hstep.
    + now apply IH.
    + intros E; injection E as <-. exact Hstep.
    + intros E; injection E as <-. exact Hstep.
  - intros E; injection E as <-. exact Hinv.
Qed.

Lemma after_loop_history (max_moves : Z) (ended : flow * @session Board) :
  history_counted (snd ended) -> history_counted (after_loop max_moves ended).
Proof.
  destruct ended as [[| |] s]; unfold history_counted; cbn [snd after_loop]; intros H;
    try (destruct (_ >=? _)); exact H.
Qed.

(** C1. After any sequence of moves given to [_validate_and_make_move],
    starting from a new game, the move history is as long as the move
    counter says; every accepted move adds one to the counter and appends
    one token (the cleaned text) to the history, and a rejected move leaves
    both as they were. The same holds when [play_game] is through, the
    game loop changing neither but by [_validate_and_make_move]. *)
Theorem history_length_is_move_count (game_mode : mode) (human_color : color)
    (moves : list text) :
  (let '(self, gs) := apply_all (ChessGame_init game_mode human_color)
                                GameState_init moves in
   len (move_history self) = move_count gs)
  /\ (forall (self : ChessGame) (gs : GameState) (m : text),
         let '(ok, self', gs') := _validate_and_make_move self gs m in
         if ok
         then move_count gs' = move_count gs + 1
              /\ move_history self' = move_history self ++ [lower (strip m)]
         else move_count gs' = move_count gs
              /\ move_history self' = move_history self)
  /\ (forall (max_moves : Z) (fuel : nat) (st0 : io) (final : session),
         play_game w max_moves fuel
           (mkSession (ChessGame_init game_mode human_color) GameState_init st0)
         = Some final ->
         len (move_history (game final)) = move_count (state final)).
Proof.
  split; [|split].
  - pose proof (apply_all_invariant moves (ChessGame_init game_mode human_color)
                  GameState_init eq_refl) as Hinv.
    destruct (apply_all _ _ moves) as [self gs]. exact Hinv.
  - intros self gs m.
    destruct (validate_and_make_move_cases self gs m)
      as [(_ & ->) | (_ & move & self' & _ & -> & _ & Hhist & _)].
    + split; reflexivity.
    + split; [reflexivity|exact Hhist].
  - intros max_moves fuel st0 final Hplay. unfold play_game in Hplay.
    destruct (play_loop w max_moves fuel _) as [ended|] eqn:Hended; [|discriminate].
    injection Hplay as <-. apply after_loop_history.
    eapply play_loop_history; [|exact Hended]. reflexivity.
Qed.

End LoopProperties.

(** ** The properties on the small game *)

(** On the opening, e2e4 is accepted and counted; played again, it is
    rejected and nothing changes. *)
Lemma rejected_move_changes_nothing_witness :
  let g0 := ChessGame_init human_vs_human white in
  let g1 := snd (fst (_validate_and_make_move g0 GameState_init (txt "e2e4"))) in
  let s1 := snd (_validate_and_make_move g0 GameState_init (txt "e2e4")) in
  move_count s1 = 1
  /\ _validate_and_make_move g1 s1 (txt "e2e4") = (false, g1, s1)
  /\ (legal_text (legal_moves (board g1)) (lower (strip (txt "e2e4"))) = false
      /\ g1 = g1 /\ s1 = s1
      /\ board g1 = board g1
      /\ move_count s1 = move_count s1
      /\ move_history g1 = move_history g1
      /\ consecutive_errors s1 = consecutive_errors s1).
Proof.
  intros g0 g1 s1.
  assert (Hrej : _validate_and_make_move g1 s1 (txt "e2e4") = (false, g1, s1))
    by reflexivity.
  split; [reflexivity|]. split; [exact Hrej|].
  exact (rejected_move_changes_nothing g1 g1 s1 s1 (txt "e2e4") Hrej).
Defined.

(** The last position of the opening is a checkmate in which a draw could
    be claimed as well: checkmate is what is reported. *)
Lemma check_game_over_first_condition_witness :
  let self := mkChessGame (tl (tl opening))
                [txt "e2e4"; txt "e7e5"] human_vs_human 3
                (HumanChessPlayer white) (HumanChessPlayer black) in
  can_claim_draw (board self) = true
  /\ exists winner,
      _check_game_over self GameState_init
      = (true, terminate_game GameState_init
                 (txt "CHECKMATE! " ++ winner ++ txt " wins!")).
Proof.
  intros self. split; [reflexivity|].
  exact (proj2 (check_game_over_first_condition self GameState_init) eq_refl).
Defined.

(** The remote player against an API that always times out gives up after
    three requests; asked on a board without legal moves, it returns at
    once. *)
Lemma ai_get_move_bounded_retries_witness :
  let timeouts := steady_world Timeout in
  (posts (snd (ai_get_move timeouts opening (io_init [])))
   = 3%nat
   /\ fst (ai_get_move timeouts opening (io_init []))
      = Return None)
  /\ ai_get_move timeouts [] (io_init [])
     = (Return None, fst (acquire timeouts (io_init []))).
Proof.
  intros timeouts. split; [split; [reflexivity|]|].
  - apply (ai_get_move_bounded_retries timeouts opening
             (io_init [])).
    intros k _. reflexivity.
  - apply (ai_get_move_bounded_retries timeouts [] (io_init []));
      [reflexivity|cbn; lia].
Defined.

(** White's remote player has failed twice; a third failure ends the game,
    148 moves short of the limit, with White's seat named. *)
Lemma error_ceiling_terminates_witness :
  let s := mkSession (ChessGame_init ai_vs_ai white)
             (count_error (count_error GameState_init)) (io_init []) in
  exists final,
    play_game (steady_world Timeout) 150 1 s = Some final
    /\ should_terminate (state final) = true
    /\ termination_reason (state final)
       = txt "Too many consecutive errors from AI_White"
    /\ move_count (state final) = 0.
Proof.
  intros s.
  exact (error_ceiling_terminates (steady_world Timeout) s 150 0
           eq_refl eq_refl eq_refl eq_refl ltac:(cbn; lia)).
Defined.

(** The console player types e2e4 with capitals and blanks around it: the
    move returned is the cleaned text, a legal move of the opening. *)
Lemma get_move_returns_legal_move_witness :
  let st := io_init [Line (txt "  E2E4 ")] in
  get_move (steady_world Timeout)
    (HumanChessPlayer white) opening GameState_init st
  = (Return (Some (txt "e2e4")), GameState_init, io_init [])
  /\ exists move,
      from_uci (txt "e2e4") = Some move
      /\ In move (legal_moves opening).
Proof.
  intros st. split; [reflexivity|].
  exact (get_move_returns_legal_move (steady_world Timeout)
           (HumanChessPlayer white) opening GameState_init GameState_init
           st (io_init []) (txt "e2e4") eq_refl).
Defined.

(** Two console players play e2e4 and e7e5 on the opening: the game ends
    with two moves counted and two tokens in the history. *)
Lemma history_length_is_move_count_witness :
  let s0 := mkSession (ChessGame_init human_vs_human white) GameState_init
              (io_init [Line (txt "e2e4"); Line (txt "e7e5")]) in
  exists final,
    play_game (steady_world Timeout) 150 (enough_fuel 150 3) s0 = Some final
    /\ move_history (game final) = [txt "e2e4"; txt "e7e5"]
    /\ len (move_history (game final)) = move_count (state final).
Proof.
  intros s0.
  destruct (play_game (steady_world Timeout) 150 (enough_fuel 150 3) s0)
    as [final|] eqn:Hplay; [|vm_compute in Hplay; discriminate].
  exists final. split; [reflexivity|].
  split; [vm_compute in Hplay; injection Hplay as <-; reflexivity|].
  exact (proj2 (proj2 (history_length_is_move_count (steady_world Timeout)
                         human_vs_human white []))
               150 (enough_fuel 150 3)
               (io_init [Line (txt "e2e4"); Line (txt "e7e5")]) final Hplay).
Defined.

(* ===================================================================== *)
(** * Part III. Further properties of the code                             *)
(* ===================================================================== *)

(** ** The rate limiter, call by call *)

(** How a call ends is decided by the two pruned sequences. *)
Lemma wait_if_needed_trichotomy (self : RateLimiter) (c : clock) :
  let r := snd (wait_if_needed self c) in
  (max_calls_per_day self <= len (day_pruned self c)
   /\ r = BlockedUntilMidnight (seconds_to_midnight (now c)))
  \/ (len (day_pruned self c) < max_calls_per_day self
      /\ max_calls_per_minute self <= 0 /\ minute_pruned self c = []
      /\ r = MinOfEmpty)
  \/ (len (day_pruned self c) < max_calls_per_day self
      /\ (1 <= max_calls_per_minute self \/ minute_pruned self c <> [])
      /\ exists stamp slept, r = Recorded stamp slept).
Proof.
  cbv zeta.
  destruct (Z_le_gt_dec (max_calls_per_day self) (len (day_pruned self c))) as [Hd|Hd].
  - left. split; [exact Hd|].
    destruct (wait_if_needed_blocked self c Hd) as [reset ->]. reflexivity.
  - right. destruct (wait_if_needed self c) as [self' r] eqn:E. cbn [snd].
    destruct r as [stamp slept|slept|].
    + right. split; [lia|]. split; [|eauto].
      apply wait_if_needed_recorded in E as (_ & _ & [(Hlen & _)|(o & _ & Ho & _)]).
      * pose proof (len_nonneg (minute_pruned self c)). left. lia.
      * right. intros Hnil. rewrite Hnil in Ho. discriminate.
    + exfalso. pose proof (wait_if_needed_not_recorded self self' c _ E) as _.
      revert E. unfold wait_if_needed. fold (minute_pruned self c).
      assert (Hdp : (len (day_pruned self c) >=? max_calls_per_day self) = false) by lia.
      unfold day_pruned in Hdp.
      destruct (date (now c) >? date (last_reset_time self)); cbv zeta;
        rewrite Hdp;
        repeat match goal with
               | |- context [if ?b then _ else _] => destruct b
               | |- context [match list_min ?l with _ => _ end] => destruct (list_min l)
               end; discriminate.
    + left. split; [lia|]. pose proof (wait_if_needed_min_of_empty _ _ _ E) as HM.
      split; [exact HM|]. split; [|reflexivity].
      revert E. unfold wait_if_needed. fold (minute_pruned self c).
      destruct (date (now c) >? date (last_reset_time self)); cbv zeta;
        (destruct (_ >=? max_calls_per_day self); [discriminate|]);
        (destruct (len (minute_pruned self c) >=? max_calls_per_minute self);
         [|discriminate]);
        (destruct (list_min (minute_pruned self c)) as [o|] eqn:Eo;
         [destruct (_ >? 0); discriminate|]);
        intros _; now apply list_min_None.
Qed.

(** X1. A call of [wait_if_needed] blocks until midnight exactly when the
    daily sequence, after the calendar-day check and the pruning, is at
    capacity; it raises ([min] of an empty list) exactly when it is not, the
    per-minute capacity is not positive and no call of the last minute is
    on record; and it records its time stamp in every other case. *)
Theorem wait_if_needed_outcome (self : RateLimiter) (c : clock) :
  let r := snd (wait_if_needed self c) in
  (r = BlockedUntilMidnight (seconds_to_midnight (now c))
   <-> max_calls_per_day self <= len (day_pruned self c))
  /\ (r = MinOfEmpty
      <-> len (day_pruned self c) < max_calls_per_day self
          /\ max_calls_per_minute self <= 0 /\ minute_pruned self c = [])
  /\ ((exists stamp slept, r = Recorded stamp slept)
      <-> len (day_pruned self c) < max_calls_per_day self
          /\ (1 <= max_calls_per_minute self \/ minute_pruned self c <> [])).
Proof.
  cbv zeta.
  destruct (wait_if_needed_trichotomy self c)
    as [(Hd & ->)|[(Hd & HM & Hnil & ->)|(Hd & Hok & stamp & slept & ->)]].
  - split; [tauto|]. split; [split; [discriminate|lia]|].
    split; [intros (s & w & E); discriminate|lia].
  - split; [split; [discriminate|lia]|]. split; [tauto|].
    split; [intros (s & w & E); discriminate|].
    intros (_ & [H|H]); [lia|contradiction].
  - split; [split; [discriminate|lia]|].
    split; [split; [discriminate|]|split; eauto].
    intros (_ & HM & Hnil). destruct Hok; [lia|contradiction].
Qed.

Lemma seconds_to_midnight_bounds (d : Z) :
  0 < seconds_to_midnight d <= seconds_per_day.
Proof.
  unfold seconds_to_midnight, date, seconds_per_day.
  pose proof (Z.div_mod d (24 * 60 * 60) ltac:(lia)) as Hdiv.
  pose proof (Z.mod_pos_bound d (24 * 60 * 60) ltac:(lia)) as Hmod.
  lia.
Qed.

(** X2. When no recorded call lies in the future, a call that sleeps for the
    per-minute limit sleeps more than 5 and at most 65 seconds and records
    the time it woke at (the test [wait_time > 0] of line 59 never fails);
    a call that does not sleep records the time it was made at; and a call
    that blocks for the daily limit sleeps at most one day. *)
Theorem wait_if_needed_sleep_bounds (self : RateLimiter) (c : clock) :
  Forall (fun t => t <= current_time c) (calls_per_minute self) ->
  sleep_within_bounds self c (snd (wait_if_needed self c)).
Proof.
  intros Hpast. unfold sleep_within_bounds.
  pose proof (wait_if_needed_trichotomy self c) as Hcases. cbv zeta in Hcases.
  destruct (wait_if_needed self c) as [self' r] eqn:Ew. cbn [snd] in *.
  destruct r as [stamp slept|slept|]; [| |exact I].
  - apply wait_if_needed_recorded in Ew
      as (_ & _ & [(Hlen & -> & -> & _)|(o & Hfull & Ho & -> & -> & _)]).
    + left. auto.
    + right. apply list_min_In in Ho. apply newer_than_In in Ho as [Hin Hnew].
      rewrite Forall_forall in Hpast. specialize (Hpast o Hin). repeat split; lia.
  - destruct Hcases as [(_ & E)|[(_ & _ & _ & E)|(_ & _ & s & w' & E)]];
      try discriminate.
    injection E as ->. apply seconds_to_midnight_bounds.
Qed.

(** One call a minute: a second call 10 seconds after the first sleeps 55
    seconds. *)
Lemma wait_if_needed_sleep_bounds_witness :
  let self := fst (wait_if_needed (RateLimiter_init 1 5 0) (mkClock 0 0 0)) in
  let c := mkClock 10 10 66 in
  snd (wait_if_needed self c) = Recorded 66 55
  /\ sleep_within_bounds self c (snd (wait_if_needed self c)).
Proof.
  intros self c. split; [reflexivity|].
  apply wait_if_needed_sleep_bounds. repeat constructor. cbn. lia.
Defined.

(** X3. The first call of a new calendar day is not held back by the daily
    limit: with positive capacities it is recorded, the daily sequence
    starts again with that call alone, and the day is remembered. *)
Theorem first_call_of_a_new_day (self : RateLimiter) (c : clock) :
  date (last_reset_time self) < date (now c) ->
  1 <= max_calls_per_minute self ->
  1 <= max_calls_per_day self ->
  exists stamp slept,
    snd (wait_if_needed self c) = Recorded stamp slept
    /\ calls_per_day (fst (wait_if_needed self c)) = [stamp]
    /\ last_reset_time (fst (wait_if_needed self c)) = now c.
Proof.
  intros Hday HM HD.
  assert (Hdp : day_pruned self c = []).
  { unfold day_pruned. destruct (date (now c) >? date (last_reset_time self)) eqn:E;
      [reflexivity|lia]. }
  destruct (wait_if_needed_trichotomy self c)
    as [(Hd & _)|[(_ & HM' & _)|(_ & _ & stamp & slept & E)]]; cbv zeta in *.
  - rewrite Hdp in Hd. change (len []) with 0 in Hd. lia.
  - lia.
  - exists stamp, slept. split; [exact E|].
    destruct (wait_if_needed self c) as [self' r] eqn:Ew. cbn [fst snd] in *. subst r.
    pose proof Ew as Ew'.
    apply wait_if_needed_recorded in Ew as (_ & Hcpd & _).
    rewrite Hdp in Hcpd. split; [exact Hcpd|].
    revert Ew'. unfold wait_if_needed.
    destruct (date (now c) >? date (last_reset_time self)) eqn:Eday; [|lia].
    cbv zeta.
    repeat match goal with
           | |- context [if ?b then _ else _] => destruct b
           | |- context [match list_min ?l with _ => _ end] => destruct (list_min l)
           end; intros H; injection H as <- _; reflexivity.
Qed.

(** Two calls a day were made on day 0; the first call of day 1 is recorded
    and is alone in the daily sequence. *)
Lemma first_call_of_a_new_day_witness :
  let self := acquire_all (RateLimiter_init 6 2 0) (steady_calls 100 100 2) in
  calls_per_day self = [100; 200]
  /\ exists stamp slept,
      snd (wait_if_needed self (mkClock 86500 86500 86500)) = Recorded stamp slept
      /\ calls_per_day (fst (wait_if_needed self (mkClock 86500 86500 86500))) = [stamp]
      /\ last_reset_time (fst (wait_if_needed self (mkClock 86500 86500 86500))) = 86500.
Proof.
  intros self. split; [reflexivity|].
  apply (first_call_of_a_new_day self (mkClock 86500 86500 86500));
    vm_compute; congruence.
Defined.

(** ** Clean text *)

Ltac by_cases_on_char_pair c :=
  destruct c as [[] [] [] [] [] [] [] []]; vm_compute; intros H;
  try discriminate; split; reflexivity.

Lemma is_file_clean (c : ascii) :
  is_file c = true -> isspace c = false /\ lower_char c = c.
Proof. by_cases_on_char_pair c. Qed.

Lemma is_rank_clean (c : ascii) :
  is_rank c = true -> isspace c = false /\ lower_char c = c.
Proof. by_cases_on_char_pair c. Qed.

Lemma is_promotion_clean (c : ascii) :
  is_promotion c = true -> isspace c = false /\ lower_char c = c.
Proof. by_cases_on_char_pair c. Qed.

Lemma lstrip_unbroken (m : text) : unbroken isspace m = true -> lstrip m = m.
Proof.
  destruct m as [|c m]; [reflexivity|]. simpl. intros H.
  apply andb_prop in H as [Hc _]. apply negb_true_iff in Hc. rewrite Hc. reflexivity.
Qed.

Lemma unbroken_rev (is_sep : ascii -> bool) (m : text) :
  unbroken is_sep (rev m) = unbroken is_sep m.
Proof.
  unfold unbroken. induction m as [|c m IH]; [reflexivity|].
  cbn [rev]. rewrite forallb_app, IH. cbn [forallb].
  rewrite andb_true_r. apply andb_comm.
Qed.

(** Text without white space is not changed by [strip]. *)
Lemma strip_unbroken (m : text) : unbroken isspace m = true -> strip m = m.
Proof.
  intros H. unfold strip, rstrip. rewrite (lstrip_unbroken m H).
  rewrite lstrip_unbroken by (rewrite unbroken_rev; exact H).
  apply rev_involutive.
Qed.

(** Text made of lowered characters is not changed by [lower]. *)
Lemma lower_fixed (m : text) :
  (forall c, In c m -> lower_char c = c) -> lower m = m.
Proof.
  induction m as [|c m IH]; intros H; [reflexivity|].
  cbn [lower map]. rewrite (H c (or_introl eq_refl)). f_equal.
  apply IH. intros d Hd. apply H. now right.
Qed.

Lemma is_uci_token_clean (m : text) :
  is_uci_token m = true -> lower (strip m) = m.
Proof.
  intros Htok.
  assert (Hall : forall c, In c m -> isspace c = false /\ lower_char c = c).
  { unfold is_uci_token in Htok.
    destruct m as [|f1 [|r1 [|f2 [|r2 [|p [|x m]]]]]]; try discriminate.
    - do 3 (apply andb_prop in Htok as [Htok ?]).
      intros c [<-|[<-|[<-|[<-|[]]]]];
        auto using is_file_clean, is_rank_clean.
    - do 4 (apply andb_prop in Htok as [Htok ?]).
      intros c [<-|[<-|[<-|[<-|[<-|[]]]]]];
        auto using is_file_clean, is_rank_clean, is_promotion_clean. }
  rewrite strip_unbroken.
  - apply lower_fixed. intros c Hc. now apply Hall.
  - unfold unbroken. apply forallb_forall. intros c Hc.
    destruct (Hall c Hc) as [-> _]. reflexivity.
Qed.

(** The fields of a text hold no separator, and only characters of the
    text (or of the word that was being read). *)
Lemma fields_from_elements (is_sep : ascii -> bool) (s : text) :
  forall (word w : text),
    unbroken is_sep word = true ->
    In w (fields_from is_sep word s) ->
    unbroken is_sep w = true /\ forall c, In c w -> In c word \/ In c s.
Proof.
  assert (Hflush : forall word w : text,
             unbroken is_sep word = true -> w = rev word ->
             unbroken is_sep w = true /\ forall c, In c w -> In c word).
  { intros word w Hw ->. split; [now rewrite unbroken_rev|].
    intros c Hc. now apply in_rev. }
  induction s as [|d s IH]; intros word w Hword; cbn [fields_from].
  - destruct word as [|e word]; [contradiction|].
    intros [<-|[]]. destruct (Hflush (e :: word) _ Hword eq_refl) as [H1 H2]. auto.
  - destruct (is_sep d) eqn:Hd.
    + destruct word as [|e word].
      * intros Hin. destruct (IH [] w eq_refl Hin) as [H1 H2]. split; [exact H1|].
        intros c Hc. destruct (H2 c Hc) as [[]|H]. right. now right.
      * intros [<-|Hin].
        -- destruct (Hflush (e :: word) _ Hword eq_refl) as [H1 H2]. auto.
        -- destruct (IH [] w eq_refl Hin) as [H1 H2]. split; [exact H1|].
           intros c Hc. destruct (H2 c Hc) as [[]|H]. right. now right.
    + intros Hin.
      assert (Hword' : unbroken is_sep (d :: word) = true).
      { unfold unbroken in *. cbn [forallb]. now rewrite Hd, Hword. }
      destruct (IH (d :: word) w Hword' Hin) as [H1 H2]. split; [exact H1|].
      intros c Hc. destruct (H2 c Hc) as [[<-|H]|H]; auto.
      * right. now left.
      * right. now right.
Qed.

Section CleanMoves.
Context {Board Move : Type} {engine : RulesEngine Board Move}.

(** The extraction, read off the words of the cleaned reply. *)
Lemma extract_first_legal_word_eq (content : text) (legal : list Move) :
  _extract_move_from_response content legal =
  match find (fun w => is_uci_token w && legal_text legal w)
             (words (lower (strip content))) with
  | Some w => Some w
  | None =>
      match split (lower (strip content)) with
      | w :: _ => if legal_text legal w then Some w else None
      | [] => None
      end
  end.
Proof.
  unfold _extract_move_from_response.
  rewrite first_legal_match_find, findall_uci_words, find_filter.
  destruct (find _ (words _)); [reflexivity|].
  destruct (split (lower (strip content))) as [|w rest] eqn:E; [reflexivity|].
  assert (Hw : w <> []).
  { apply (fields_from_nonempty isspace (lower (strip content)) []).
    fold (split (lower (strip content))). rewrite E. now left. }
  destruct w as [|c w]; [contradiction|].
  unfold legal_text. destruct (from_uci (c :: w)); reflexivity.
Qed.

(** What is extracted from a reply is clean text: to clean it again changes
    nothing. *)
Lemma extract_clean (content : text) (legal : list Move) (m : text) :
  _extract_move_from_response content legal = Some m -> lower (strip m) = m.
Proof.
  rewrite extract_first_legal_word_eq.
  destruct (find _ (words _)) as [w|] eqn:E.
  - intros H; injection H as <-. apply find_some in E as [_ E].
    apply andb_prop in E as [Htok _]. now apply is_uci_token_clean.
  - destruct (split (lower (strip content))) as [|w rest] eqn:Es; [discriminate|].
    destruct (legal_text legal w); [|discriminate].
    intros H; injection H as <-.
    destruct (fields_from_elements isspace (lower (strip content)) [] w eq_refl)
      as [Hu Hc].
    { fold (split (lower (strip content))). rewrite Es. now left. }
    rewrite strip_unbroken by exact Hu.
    apply lower_fixed. intros c Hin. destruct (Hc c Hin) as [[]|H].
    unfold lower in H. apply in_map_iff in H as (d & <- & _). apply lower_char_idem.
Qed.

End CleanMoves.

(** ** What the players return *)

Lemma lstrip_blank (s : text) : forallb isspace s = true -> lstrip s = [].
Proof.
  induction s as [|c s IH]; [reflexivity|]. simpl. intros H.
  apply andb_prop in H as [-> H]. now apply IH.
Qed.

Section ReturnedMoves.
Context {Board Move : Type} {engine : RulesEngine Board Move}.
Variable w : world.

(** X4. Nothing is extracted from a reply that is empty or all white
    space: the first-word fallback is guarded and does not fail. *)
Theorem extract_blank_reply (content : text) (legal : list Move) :
  forallb isspace content = true ->
  _extract_move_from_response content legal = None.
Proof.
  intros Hblank. unfold _extract_move_from_response, strip, rstrip.
  rewrite (lstrip_blank content Hblank). reflexivity.
Qed.

(** A pass of the loop that returns a move took it from a reply. *)
Lemma attempt_extracted (board : Board) (retry_count : nat) (st st' : io) (m : text) :
  attempt w board retry_count st = (Done (Return (Some m)), st') ->
  exists content, _extract_move_from_response content (legal_moves board) = Some m.
Proof.
  unfold attempt. destruct (acquire w st) as [st1 r].
  destruct (raised r); [discriminate|].
  destruct (legal_moves board) as [|mv legal]; [discriminate|].
  destruct (post w st1) as [st2 outcome].
  destruct outcome as [| | |status_code result]; try discriminate.
  destruct (negb (status_code =? 200)); [discriminate|].
  destruct result as [|content|]; try discriminate.
  destruct (_extract_move_from_response content (mv :: legal)) as [move_str|] eqn:E;
    [|discriminate].
  intros H; injection H as <- _. eauto.
Qed.

Lemma get_move_attempts_extracted (board : Board) (remaining : nat) :
  forall (st st' : io) (m : text),
    get_move_attempts w board remaining st = (Return (Some m), st') ->
    exists content, _extract_move_from_response content (legal_moves board) = Some m.
Proof.
  induction remaining as [|n IH]; intros st st' m; cbn [get_move_attempts];
    [discriminate|].
  destruct (attempt w board (max_retries - S n) st) as [[r|seconds] st1] eqn:E.
  - intros H; injection H as -> ->. eapply attempt_extracted; eauto.
  - apply IH.
Qed.

(** The moves either player returns are legal and clean. *)
Lemma get_move_clean (p : player) (board : Board) (gs gs' : GameState)
    (st st' : io) (m : text) :
  get_move w p board gs st = (Return (Some m), gs', st') ->
  gs' = gs /\ legal_text (legal_moves board) m = true /\ lower (strip m) = m.
Proof.
  destruct p as [c|c]; cbn [get_move].
  - unfold ai_get_move.
    destruct (get_move_attempts w board max_retries st) as [r st1] eqn:E.
    intros H; injection H as -> <- _.
    apply get_move_attempts_extracted in E as [content E].
    split; [reflexivity|]. split; [eapply extract_legal|eapply extract_clean]; eauto.
  - unfold human_get_move.
    destruct (human_get_move_loop (legal_moves board) (console st) gs)
      as [[r gs1] rest] eqn:E.
    intros H; injection H as -> <- _.
    apply human_get_move_loop_legal in E as (Hlegal & -> & l & ->).
    split; [reflexivity|]. split; [exact Hlegal|apply clean_idem].
Qed.

(** X5. A move returned by [get_move], of either player, is accepted by
    [_validate_and_make_move] on the board it was asked for, and the text
    returned is the token that enters the move history. *)
Theorem returned_move_is_accepted (p : player) (self : ChessGame)
    (gs gs' : GameState) (st st' : io) (m : text) :
  get_move w p (board self) gs st = (Return (Some m), gs', st') ->
  exists move self',
    from_uci m = Some move
    /\ _validate_and_make_move self gs' m = (true, self', count_move gs')
    /\ board self' = push (board self) move
    /\ move_history self' = move_history self ++ [m].
Proof.
  intros Hget. apply get_move_clean in Hget as (-> & Hlegal & Hclean).
  destruct (validate_and_make_move_cases self gs m)
    as [(Hill & _)|(_ & move & self' & Hparse & Hok & Hboard & Hhist & _)];
    rewrite Hclean in *; [congruence|].
  exists move, self'. auto.
Qed.

(** How the loop of the console player ends. *)
Lemma human_get_move_loop_outcome (legal : list Move) (lines : list console_event)
    (gs : GameState) :
  let '(r, gs', rest) := human_get_move_loop legal lines gs in
  match r with
  | Some m => gs' = gs /\ (length rest < length lines)%nat
  | None => exists reason,
              In reason human_exit_reasons /\ gs' = terminate_game gs reason
  end.
Proof.
  unfold human_exit_reasons.
  induction lines as [|e lines IH]; cbn [human_get_move_loop].
  - eexists. split; [|reflexivity]. cbn. auto.
  - assert (Hnext :
              let '(r, gs', rest) := human_get_move_loop legal lines gs in
              match r with
              | Some m => gs' = gs /\ (length rest < length (e :: lines))%nat
              | None => exists reason,
                          In reason
                             [txt "Human player quit"; txt "User interrupted";
                              txt "Input ended"]
                          /\ gs' = terminate_game gs reason
              end).
    { destruct (human_get_move_loop legal lines gs) as [[r gs'] rest].
      destruct r; [|exact IH]. destruct IH as [-> Hlen]. cbn [length].
      split; [auto|lia]. }
    destruct e as [l|]; [|eexists; split; [|reflexivity]; cbn; auto].
    destruct (text_eqb (lower (strip l)) (txt "quit"));
      [eexists; split; [|reflexivity]; cbn; auto|].
    destruct (text_eqb (lower (strip l)) (txt "help")); [exact Hnext|].
    destruct (text_eqb (lower (strip l)) (txt "legal")); [exact Hnext|].
    destruct (text_eqb (lower (strip l)) []); [exact Hnext|].
    destruct (from_uci (lower (strip l))) as [move|]; [|exact Hnext].
    destruct (move_in move legal); [|exact Hnext].
    split; [reflexivity|]. cbn [length]. lia.
Qed.

(** X6. [HumanChessPlayer.get_move] touches nothing but the console input
    and the termination record: it returns a move with the game state as
    it was and at least one line read, and it returns nothing only after
    terminating the game with one of its three reasons. *)
Theorem human_get_move_outcome (board : Board) (gs : GameState) (st : io) :
  let '(r, gs', st') := human_get_move board gs st in
  (limiter st' = limiter st /\ acquires st' = acquires st
   /\ posts st' = posts st /\ sleeps st' = sleeps st)
  /\ match r with
     | Some m => gs' = gs /\ (length (console st') < length (console st))%nat
     | None => exists reason,
                 In reason human_exit_reasons /\ gs' = terminate_game gs reason
     end.
Proof.
  unfold human_get_move.
  pose proof (human_get_move_loop_outcome (legal_moves board) (console st) gs) as Hloop.
  destruct (human_get_move_loop (legal_moves board) (console st) gs) as [[r gs'] rest].
  cbn [limiter acquires posts sleeps console]. split; [auto|exact Hloop].
Qed.

(** X7. The console player reads past lines of ASCII characters that are
    [help], [legal], blank, or moves that do not parse or are not legal
    (and not [quit]): such lines neither end the loop nor change
    anything. *)
Theorem human_get_move_reads_past (legal : list Move)
    (skipped rest : list console_event) (gs : GameState) :
  forallb (read_past legal) skipped = true ->
  human_get_move_loop legal (skipped ++ rest) gs = human_get_move_loop legal rest gs.
Proof.
  induction skipped as [|e skipped IH]; intros Hskip; [reflexivity|].
  cbn [forallb] in Hskip. apply andb_prop in Hskip as [He Hskip].
  specialize (IH Hskip). cbn [app human_get_move_loop].
  destruct e as [l|]; [|discriminate]. cbn [read_past] in He.
  apply andb_prop in He as [He Hrest]. apply andb_prop in He as [_ Hquit].
  rename Hrest into He. apply negb_true_iff in Hquit. rewrite Hquit.
  destruct (text_eqb (lower (strip l)) (txt "help")); [exact IH|].
  destruct (text_eqb (lower (strip l)) (txt "legal")); [exact IH|].
  destruct (text_eqb (lower (strip l)) []); [exact IH|].
  cbn [orb] in He. apply negb_true_iff in He. unfold legal_text in He.
  destruct (from_uci (lower (strip l))) as [move|]; [|exact IH].
  rewrite He. exact IH.
Qed.

End ReturnedMoves.

(** A reply of blanks and line breaks gives no move. *)
Lemma extract_blank_reply_witness :
  _extract_move_from_response (engine := opening_engine)
    [" "; "010"; "009"; " "]%char [txt "e2e4"] = None.
Proof. apply extract_blank_reply. reflexivity. Defined.

(** The move the console player returns on the opening is accepted and is
    the token of the history. *)
Lemma returned_move_is_accepted_witness :
  let self := ChessGame_init human_vs_human white in
  exists move self',
    from_uci (txt "e2e4") = Some move
    /\ _validate_and_make_move self GameState_init (txt "e2e4")
       = (true, self', count_move GameState_init)
    /\ board self' = push (board self) move
    /\ move_history self' = move_history self ++ [txt "e2e4"].
Proof.
  intros self.
  exact (returned_move_is_accepted (steady_world Timeout) (HumanChessPlayer white) self
           GameState_init GameState_init (io_init [Line (txt "  E2E4 ")]) (io_init [])
           (txt "e2e4") eq_refl).
Defined.

(** A question, a blank line, a malformed and an illegal move are read
    past; the move typed after them is returned. *)
Lemma human_get_move_reads_past_witness :
  let skipped := [Line (txt "Help"); Line (txt "  "); Line (txt "pawn to e4");
                  Line (txt "e7e5")] in
  human_get_move_loop (legal_moves opening) (skipped ++ [Line (txt "e2e4")])
    GameState_init
  = (Some (txt "e2e4"), GameState_init, []).
Proof.
  intros skipped.
  rewrite (human_get_move_reads_past (legal_moves opening) skipped
             [Line (txt "e2e4")] GameState_init); [reflexivity|].
  vm_compute. reflexivity.
Defined.

(** ** Requests and the limiter *)

Lemma acquire_all_app (cs1 cs2 : list clock) :
  forall self : RateLimiter,
    acquire_all self (cs1 ++ cs2) = acquire_all (acquire_all self cs1) cs2.
Proof. induction cs1 as [|c cs1 IH]; intros self; [reflexivity|]. simpl. apply IH. Qed.

Lemma clocks_between_app (w : world) (a b c : nat) :
  (a <= b)%nat -> (b <= c)%nat ->
  clocks_between w a c = clocks_between w a b ++ clocks_between w b c.
Proof.
  intros Hab Hbc. unfold clocks_between. rewrite <- map_app. f_equal.
  replace (c - a)%nat with ((b - a) + (c - b))%nat by lia.
  rewrite seq_app. do 2 f_equal. lia.
Qed.

Lemma requests_guarded_refl (w : world) (st : io) : requests_guarded w st st.
Proof.
  unfold requests_guarded, clocks_between. rewrite Nat.sub_diag.
  repeat split; try lia.
Qed.

Lemma requests_guarded_trans (w : world) (st st1 st2 : io) :
  requests_guarded w st st1 -> requests_guarded w st1 st2 -> requests_guarded w st st2.
Proof.
  intros (Ha & Hp & Hg & Hl) (Ha' & Hp' & Hg' & Hl').
  unfold requests_guarded. repeat split; try lia.
  rewrite (clocks_between_app w (acquires st) (acquires st1) (acquires st2) Ha Ha').
  rewrite acquire_all_app, <- Hl. exact Hl'.
Qed.

(** A step that touches neither the limiter nor the counters. *)
Lemma requests_guarded_frame (w : world) (st st1 st2 : io) :
  requests_guarded w st st1 ->
  limiter st2 = limiter st1 -> acquires st2 = acquires st1 -> posts st2 = posts st1 ->
  requests_guarded w st st2.
Proof.
  intros (Ha & Hp & Hg & Hl) El Ea Ep. unfold requests_guarded.
  rewrite El, Ea, Ep. auto.
Qed.

Lemma requests_guarded_acquire (w : world) (st : io) :
  requests_guarded w st (fst (acquire w st))
  /\ acquires (fst (acquire w st)) = S (acquires st)
  /\ console (fst (acquire w st)) = console st.
Proof.
  unfold acquire, requests_guarded, clocks_between.
  destruct (wait_if_needed (limiter st) (clocks w (acquires st))) as [l r] eqn:E.
  cbn [fst limiter acquires posts console].
  replace (S (acquires st) - acquires st)%nat with 1%nat by lia.
  cbn [seq map acquire_all]. rewrite E. cbn [fst].
  repeat split; lia.
Qed.

Section GuardedRequests.
Context {Board Move : Type} {engine : RulesEngine Board Move}.
Variable w : world.

(** One pass of the loop of the remote player calls the limiter once and
    posts at most one request, after that call. *)
Lemma attempt_guarded (board : Board) (retry_count : nat) (st : io) :
  let st' := snd (attempt w board retry_count st) in
  requests_guarded w st st' /\ acquires st' = S (acquires st)
  /\ console st' = console st.
Proof.
  unfold attempt.
  pose proof (requests_guarded_acquire w st) as (Hg & Ha & Hc).
  pose proof (posts_acquire w st) as Hp.
  destruct (acquire w st) as [st1 r]. cbn [fst] in *.
  destruct (raised r); [cbn [snd]; auto|].
  destruct (legal_moves board) as [|mv legal]; [cbn [snd]; auto|].
  assert (Hposted : forall st2 : io,
             limiter st2 = limiter st1 -> acquires st2 = acquires st1 ->
             posts st2 = S (posts st1) -> console st2 = console st1 ->
             requests_guarded w st st2 /\ acquires st2 = S (acquires st)
             /\ console st2 = console st).
  { intros st2 El Ea Ep Ec. destruct Hg as (Hg1 & Hg2 & Hg3 & Hg4).
    unfold requests_guarded. rewrite El, Ea, Ep, Ec.
    repeat split; try assumption; lia. }
  unfold post.
  destruct (replies w (posts st1)) as [| | |status_code result];
    try (cbn [snd]; apply Hposted; reflexivity).
  destruct (negb (status_code =? 200)); [cbn [snd]; apply Hposted; reflexivity|].
  destruct result as [|content|]; try (cbn [snd]; apply Hposted; reflexivity).
  destruct (_extract_move_from_response content (mv :: legal));
    cbn [snd]; apply Hposted; reflexivity.
Qed.

Lemma get_move_attempts_guarded (board : Board) (remaining : nat) :
  forall st : io,
    let st' := snd (get_move_attempts w board remaining st) in
    requests_guarded w st st'
    /\ (acquires st' <= acquires st + remaining)%nat
    /\ ((0 < remaining)%nat -> (acquires st < acquires st')%nat)
    /\ console st' = console st.
Proof.
  induction remaining as [|n IH]; intros st; cbv zeta; cbn [get_move_attempts].
  - cbn [snd]. split; [apply requests_guarded_refl|]. repeat split; lia.
  - pose proof (attempt_guarded board (max_retries - S n) st) as (Hg & Ha & Hc).
    cbv zeta in IH.
    destruct (attempt w board (max_retries - S n) st) as [[r|seconds] st1];
      cbn [snd] in *.
    + split; [exact Hg|]. split; [lia|]. split; [lia|exact Hc].
    + match goal with
      | |- context [get_move_attempts w board n ?s] =>
          specialize (IH s);
          assert (Hs : limiter s = limiter st1 /\ acquires s = acquires st1
                       /\ posts s = posts st1 /\ console s = console st1)
            by (destruct (S (max_retries - S n) <? max_retries)%nat; repeat split);
          destruct (get_move_attempts w board n s) as [r st2]
      end.
      cbn [snd] in *. destruct Hs as (El & Ea & Ep & Ec).
      destruct IH as (Hg' & Ha' & _ & Hc').
      split.
      * eapply requests_guarded_trans; [|exact Hg'].
        eapply requests_guarded_frame; eauto.
      * pose proof (proj1 Hg') as Hge. split; [lia|]. split; [lia|]. now rewrite Hc', Ec.
Qed.

(** X8. [DirectGeminiChessPlayer.get_move] calls the limiter at least once
    and at most 3 times, posts no request that one of these calls did not
    precede, changes the limiter through these calls only, and reads
    nothing from the console. *)
Theorem ai_get_move_requests_guarded (board : Board) (st : io) :
  let st' := snd (ai_get_move w board st) in
  requests_guarded w st st'
  /\ (acquires st < acquires st' <= acquires st + 3)%nat
  /\ console st' = console st.
Proof.
  unfold ai_get_move.
  pose proof (get_move_attempts_guarded board max_retries st) as (Hg & Ha & Hpos & Hc).
  split; [exact Hg|]. split; [|exact Hc].
  split; [apply Hpos; unfold max_retries; lia|exact Ha].
Qed.

End GuardedRequests.

(** ** Whole games *)


Section GameRuns.
Context {Board Move : Type} {engine : RulesEngine Board Move}.
Variable w : world.


(** What [get_move] of either player does outside the game objects. *)
Lemma get_move_guarded (p : player) (board : Board) (gs : GameState) (st : io) :
  let st' := snd (get_move w p board gs st) in
  requests_guarded w st st'
  /\ (acquires st' <= acquires st + 3)%nat
  /\ (is_ai p = false -> console_only st st').
Proof.
  destruct p as [c|c]; cbv zeta; cbn [get_move is_ai].
  - pose proof (get_move_attempts_guarded w board max_retries st) as (Hg & Ha & _).
    unfold ai_get_move.
    destruct (get_move_attempts w board max_retries st) as [r st'].
    cbn [snd] in *. split; [exact Hg|]. split; [exact Ha|discriminate].
  - unfold human_get_move.
    destruct (human_get_move_loop (legal_moves board) (console st) gs) as [[r gs'] rest].
    cbn [snd]. split; [|split; [cbn [acquires]; lia|unfold console_only; cbn; auto]].
    eapply requests_guarded_frame; [apply requests_guarded_refl|reflexivity..].
Qed.


Ltac split_loop_body s :=
  unfold loop_body;
  destruct (_check_game_over (game s) (state s)) as [over gs1] eqn:Hover;
  destruct over;
  [|destruct (get_move w (current_player (game s)) (board (game s)) gs1 (outside s))
      as [[r gs2] st2] eqn:Hget;
    destruct r as [[m|]|];
    [destruct (_validate_and_make_move (game s) gs2 m) as [[ok self'] gs3] eqn:Hmove;
     destruct ok; cbn [negb]| |]].

(** One iteration of the game loop, seen from outside the game objects. *)
Lemma loop_body_guarded (s : session) :
  let s' := snd (loop_body w s) in
  requests_guarded w (outside s) (outside s')
  /\ (acquires (outside s') <= acquires (outside s) + 3)%nat.
Proof.
  cbv zeta. split_loop_body s.
  - cbn [snd outside]. split; [apply requests_guarded_refl|lia].
  - pose proof (get_move_guarded (current_player (game s)) (board (game s)) gs1
                  (outside s)) as Hg.
    rewrite Hget in Hg. cbv zeta in Hg. cbn [snd] in Hg. destruct Hg as (Hg & Ha & _).
    destruct (game_mode (game s)); try destruct (is_ai (current_player (game s)));
      cbn [snd outside sleep acquires];
      (split; [eapply requests_guarded_frame; [exact Hg|reflexivity..]|exact Ha]).
  - pose proof (get_move_guarded (current_player (game s)) (board (game s)) gs1
                  (outside s)) as Hg.
    rewrite Hget in Hg. cbv zeta in Hg. cbn [snd] in Hg. destruct Hg as (Hg & Ha & _).
    destruct (consecutive_errors (count_error gs3) >=? max_consecutive_errors (game s));
      try destruct (is_ai (current_player (game s)));
      cbn [snd outside sleep acquires];
      (split; [eapply requests_guarded_frame; [exact Hg|reflexivity..]|exact Ha]).
  - pose proof (get_move_guarded (current_player (game s)) (board (game s)) gs1
                  (outside s)) as Hg.
    rewrite Hget in Hg. cbv zeta in Hg. cbn [snd] in Hg. destruct Hg as (Hg & Ha & _).
    destruct (consecutive_errors (count_error gs2) >=? max_consecutive_errors (game s));
      try destruct (is_ai (current_player (game s)));
      cbn [snd outside sleep acquires];
      (split; [eapply requests_guarded_frame; [exact Hg|reflexivity..]|exact Ha]).
  - pose proof (get_move_guarded (current_player (game s)) (board (game s)) gs1
                  (outside s)) as Hg.
    rewrite Hget in Hg. cbv zeta in Hg. cbn [snd] in Hg. destruct Hg as (Hg & Ha & _).
    cbn [snd outside]. auto.
Qed.



(** A game of console players stays one and touches nothing but the
    console. *)
Lemma loop_body_humans (s : session) :
  humans_only (game s) ->
  humans_only (game (snd (loop_body w s)))
  /\ console_only (outside s) (outside (snd (loop_body w s))).
Proof.
  intros (Hmode & Hwhite & Hblack).
  assert (Hhuman : is_ai (current_player (game s)) = false)
    by (unfold current_player; destruct (turn (board (game s))); assumption).
  assert (Hsame : console_only (outside s) (outside s))
    by (unfold console_only; auto).
  pose proof (get_move_guarded (current_player (game s)) (board (game s))) as Hg.
  split_loop_body s; try (specialize (Hg gs1 (outside s)); rewrite Hget in Hg;
                          cbv zeta in Hg; cbn [snd] in Hg;
                          destruct Hg as (_ & _ & Hg); specialize (Hg Hhuman)).
  - cbn [snd game outside]. unfold humans_only. auto.
  - rewrite Hmode, Hhuman. cbn [snd game outside]. split; [|exact Hg].
    destruct (validate_and_make_move_cases (game s) gs2 m)
      as [(_ & E)|(_ & move & self1 & _ & E & _ & _ & Em & _ & Ew & Eb)];
      rewrite Hmove in E; [discriminate|].
    injection E as -> _. unfold humans_only. rewrite Em, Ew, Eb. auto.
  - destruct (validate_and_make_move_cases (game s) gs2 m)
      as [(_ & E)|(_ & move & self1 & _ & E & _)];
      rewrite Hmove in E; [|discriminate].
    injection E as -> _. rewrite Hhuman.
    destruct (consecutive_errors (count_error gs3) >=? max_consecutive_errors (game s));
      cbn [snd game outside]; unfold humans_only; auto.
  - rewrite Hhuman.
    destruct (consecutive_errors (count_error gs2) >=? max_consecutive_errors (game s));
      cbn [snd game outside]; unfold humans_only; auto.
  - cbn [snd game outside]. unfold humans_only. auto.
Qed.

Lemma play_loop_humans (max_moves : Z) (fuel : nat) :
  forall (s : session) (ended : flow * session),
    humans_only (game s) ->
    play_loop w max_moves fuel s = Some ended ->
    console_only (outside s) (outside (snd ended)).
Proof.
  induction fuel as [|fuel IH]; intros s ended Hhumans; cbn [play_loop];
    [discriminate|].
  destruct (negb (should_terminate (state s)) && (move_count (state s) <? max_moves)).
  - pose proof (loop_body_humans s Hhumans) as (Hnext & Hio).
    destruct (loop_body w s) as [[| |] s']; cbn [snd] in *;
      try (intros E; injection E as <-; exact Hio).
    intros E. specialize (IH s' ended Hnext E).
    destruct Hio as (H1 & H2 & H3 & H4), IH as (H1' & H2' & H3' & H4').
    unfold console_only. repeat split; congruence.
  - intros E; injection E as <-. unfold console_only. auto.
Qed.

Lemma play_loop_guarded (max_moves : Z) (fuel : nat) :
  forall (s : session) (ended : flow * session),
    play_loop w max_moves fuel s = Some ended ->
    requests_guarded w (outside s) (outside (snd ended)).
Proof.
  induction fuel as [|fuel IH]; intros s ended; cbn [play_loop]; [discriminate|].
  destruct (negb (should_terminate (state s)) && (move_count (state s) <? max_moves)).
  - pose proof (loop_body_guarded s) as (Hg & _).
    destruct (loop_body w s) as [[| |] s']; cbn [snd] in *;
      try (intros E; injection E as <-; exact Hg).
    intros E. eapply requests_guarded_trans; [exact Hg|]. now apply IH.
  - intros E; injection E as <-. apply requests_guarded_refl.
Qed.

Lemma outside_after_loop (max_moves : Z) (ended : flow * @session Board) :
  outside (after_loop max_moves ended) = outside (snd ended)
  /\ game (after_loop max_moves ended) = game (snd ended)
  /\ move_count (state (after_loop max_moves ended)) = move_count (state (snd ended)).
Proof.
  destruct ended as [[| |] s]; cbn [after_loop snd];
    try destruct (move_count (state s) >=? max_moves); auto.
Qed.

(** Induction on the iterations of the game loop, from a state in which
    the loop condition is evaluated. *)
Lemma play_loop_induction (ceiling max_moves : Z) (I : session -> Prop)
    (Q : flow * session -> Prop) :
  2 <= ceiling ->
  (forall s, running ceiling s -> I s -> move_count (state s) < max_moves ->
             match loop_body w s with
             | (Continue, s') => I s'
             | ended => Q ended
             end) ->
  (forall s, running ceiling s -> I s -> max_moves <= move_count (state s) ->
             Q (Continue, s)) ->
  forall (fuel : nat) (s : session) (ended : flow * session),
    running ceiling s -> I s ->
    play_loop w max_moves fuel s = Some ended -> Q ended.
Proof.
  intros Hceil Hstep Hexit.
  induction fuel as [|fuel IH]; intros s ended Hrun HI; cbn [play_loop];
    [discriminate|].
  destruct (negb (should_terminate (state s)) && (move_count (state s) <? max_moves))
    eqn:Hcond.
  - apply andb_prop in Hcond as [_ Hlt].
    pose proof (loop_body_step w ceiling s Hceil Hrun) as Hnext.
    specialize (Hstep s Hrun HI ltac:(lia)).
    destruct (loop_body w s) as [[| |] s'].
    + destruct Hnext as [Hrun' _]. now apply IH.
    + intros E; injection E as <-. exact Hstep.
    + intros E; injection E as <-. exact Hstep.
  - intros E; injection E as <-. apply Hexit; [exact Hrun|exact HI|].
    destruct Hrun as (Hrun & _). rewrite Hrun in Hcond. cbn [negb andb] in Hcond. lia.
Qed.

(** X9. A game of two console players makes no call of the limiter, sends
    no request and never sleeps: it only reads the console. *)
Theorem humans_only_game_stays_offline (s : session) (max_moves : Z) (fuel : nat)
    (final : session) :
  humans_only (game s) ->
  play_game w max_moves fuel s = Some final ->
  console_only (outside s) (outside final).
Proof.
  intros Hhumans Hplay. unfold play_game in Hplay.
  destruct (play_loop w max_moves fuel s) as [ended|] eqn:Hended; [|discriminate].
  injection Hplay as <-.
  destruct (outside_after_loop max_moves ended) as (-> & _).
  eapply play_loop_humans; eauto.
Qed.


(** X11. A game of at most [max_moves] moves, played from a new game,
    makes at most [9 * max_moves] calls of the limiter and so sends at most
    as many requests. *)
Theorem game_request_budget (game_mode : mode) (human_color : color) (st0 : io)
    (max_moves : Z) (fuel : nat) (final : session) :
  play_game w max_moves fuel
    (mkSession (ChessGame_init game_mode human_color) GameState_init st0) = Some final ->
  Z.of_nat (acquires (outside final)) <= Z.of_nat (acquires st0) + 9 * Z.max 0 max_moves
  /\ Z.of_nat (posts (outside final)) <= Z.of_nat (posts st0) + 9 * Z.max 0 max_moves.
Proof.
  intros Hplay. unfold play_game in Hplay.
  destruct (play_loop w max_moves fuel _) as [ended|] eqn:Hended; [|discriminate].
  injection Hplay as <-.
  destruct (outside_after_loop max_moves ended) as (-> & _).
  pose proof (play_loop_guarded max_moves fuel _ ended Hended) as (Ha & Hp & Hg & _).
  cbn [outside] in Ha, Hp, Hg.
  enough (Hbudget : Z.of_nat (acquires (outside (snd ended)))
                    <= Z.of_nat (acquires st0) + 9 * Z.max 0 max_moves) by lia.
  pose (I := fun s : @session Board =>
               Z.of_nat (acquires (outside s))
               <= Z.of_nat (acquires st0) + 9 * move_count (state s)
                  + 3 * consecutive_errors (state s)
               /\ (move_count (state s) < max_moves
                   \/ (consecutive_errors (state s) = 0
                       /\ move_count (state s) <= Z.max 0 max_moves))).
  pose (Q := fun e : flow * @session Board =>
               Z.of_nat (acquires (outside (snd e)))
               <= Z.of_nat (acquires st0) + 9 * Z.max 0 max_moves).
  apply (play_loop_induction 3 max_moves I Q ltac:(lia)) with (fuel := fuel)
    (s := mkSession (ChessGame_init game_mode human_color) GameState_init st0);
    [| |apply running_init| |exact Hended].
  - intros s Hrun (Hacq & Hcount) Hlt.
    pose proof (loop_body_step w 3 s ltac:(lia) Hrun) as Hnext.
    pose proof (loop_body_guarded s) as (_ & Hthree).
    destruct Hrun as (_ & _ & _ & Herr & _).
    destruct (loop_body w s) as [[| |] s']; cbn [snd] in Hthree; unfold I, Q; cbn [snd].
    + destruct Hnext as (_ & [(Em & Ee)|(Em & Ee)]); rewrite Em, Ee; lia.
    + lia.
    + lia.
  - intros s Hrun (Hacq & Hcount) Hge. unfold Q. cbn [snd]. lia.
  - unfold I. cbn [outside state GameState_init move_count consecutive_errors]. lia.
Qed.


(** X13. The game state is shared and never reset: once a game has been
    played, [play_game] of any game object plays no move, asks no player
    and leaves the outside world as it is. *)
Theorem second_game_plays_nothing (game_mode : mode) (human_color : color) (st0 : io)
    (max_moves : Z) (fuel : nat) (final : session)
    (again : ChessGame) (max_moves' : Z) (fuel' : nat) :
  play_game w max_moves fuel
    (mkSession (ChessGame_init game_mode human_color) GameState_init st0) = Some final ->
  exists final',
    play_game w max_moves' (S fuel') (mkSession again (state final) (outside final))
    = Some final'
    /\ game final' = again
    /\ outside final' = outside final
    /\ move_count (state final') = move_count (state final).
Proof.
  intros Hplay. unfold play_game in Hplay.
  destruct (play_loop w max_moves fuel _) as [ended|] eqn:Hended; [|discriminate].
  injection Hplay as <-.
  pose proof (play_loop_written_once w 3 max_moves fuel ltac:(lia) _ ended
                (running_init game_mode human_color st0) Hended) as (Hflag & _).
  unfold play_game. cbn [play_loop state]. rewrite Hflag. cbn [negb andb option_map].
  eexists. split; [reflexivity|].
  destruct (outside_after_loop max_moves'
              (Continue, mkSession again (state (after_loop max_moves ended))
                           (outside (after_loop max_moves ended)))) as (-> & -> & ->).
  cbn [snd game outside state]. auto.
Qed.

End GameRuns.

(** The only move of a two-player session on the console, then [quit]:
    the limiter, the counters and the sleeps are as before. *)
Lemma humans_only_game_stays_offline_witness :
  let s0 := mkSession (ChessGame_init human_vs_human white) GameState_init
              (io_init [Line (txt "e2e4"); Line (txt "quit")]) in
  exists final,
    play_game (steady_world Timeout) 150 (enough_fuel 150 3) s0 = Some final
    /\ console_only (outside s0) (outside final).
Proof.
  intros s0.
  destruct (play_game (steady_world Timeout) 150 (enough_fuel 150 3) s0)
    as [final|] eqn:Hplay; [|vm_compute in Hplay; discriminate].
  exists final. split; [reflexivity|].
  apply (humans_only_game_stays_offline (steady_world Timeout) s0 150
           (enough_fuel 150 3) final); [|exact Hplay].
  unfold humans_only. cbn. auto.
Defined.


(** The same game stays within 9 requests a move. *)
Lemma game_request_budget_witness :
  let w := steady_world (Response 200 (Candidate (txt "e2e4"))) in
  exists final,
    play_game w 2 (enough_fuel 2 3)
      (mkSession (ChessGame_init ai_vs_ai white) GameState_init (io_init []))
    = Some final
    /\ Z.of_nat (acquires (outside final)) <= 0 + 9 * Z.max 0 2
    /\ Z.of_nat (posts (outside final)) <= 0 + 9 * Z.max 0 2.
Proof.
  intros w.
  destruct (play_game w 2 (enough_fuel 2 3)
              (mkSession (ChessGame_init ai_vs_ai white) GameState_init (io_init [])))
    as [final|] eqn:Hplay; [|vm_compute in Hplay; discriminate].
  exists final. split; [reflexivity|].
  exact (game_request_budget w ai_vs_ai white (io_init []) 2 (enough_fuel 2 3) final
           Hplay).
Defined.


(** After a game that was quit, a new game object plays nothing, though
    its input holds a legal move. *)
Lemma second_game_plays_nothing_witness :
  let s0 := mkSession (ChessGame_init human_vs_human white) GameState_init
              (io_init [Line (txt "quit"); Line (txt "e2e4")]) in
  exists final final',
    play_game (steady_world Timeout) 150 (enough_fuel 150 3) s0 = Some final
    /\ play_game (steady_world Timeout) 150 (S 9)
         (mkSession (ChessGame_init ai_vs_ai white) (state final) (outside final))
       = Some final'
    /\ game final' = ChessGame_init ai_vs_ai white
    /\ outside final' = outside final
    /\ move_count (state final') = move_count (state final).
Proof.
  intros s0.
  destruct (play_game (steady_world Timeout) 150 (enough_fuel 150 3) s0)
    as [final|] eqn:Hplay; [|vm_compute in Hplay; discriminate].
  destruct (second_game_plays_nothing (steady_world Timeout) human_vs_human white
              (io_init [Line (txt "quit"); Line (txt "e2e4")]) 150 (enough_fuel 150 3)
              final (ChessGame_init ai_vs_ai white) 150 9 Hplay) as (final' & H).
  exists final, final'. split; [reflexivity|exact H].
Defined.

(** ** The entry point *)

Lemma selection_sound_skip (l : text) (lines : list console_event) (r : selection) :
  selection_sound lines r -> selection_sound (Line l :: lines) r.
Proof.
  destruct r as [game_mode human_color rest| |]; cbn [selection_sound].
  - intros (Hpair & read & -> & Hread & Hctrl). split; [exact Hpair|].
    exists (Line l :: read). split; [reflexivity|]. split; [discriminate|].
    intros [E|Hin]; [discriminate|auto].
  - intros Hin. now right.
  - intros Hnot [E|Hin]; [discriminate|auto].
Qed.

Lemma select_game_mode_sound (n : nat) :
  forall lines : list console_event,
    (length lines <= n)%nat -> selection_sound lines (select_game_mode lines).
Proof.
  assert (Hone : forall (l : text) (rest : list console_event)
                        (game_mode : mode) (human_color : color),
             game_mode = human_vs_ai \/ human_color = white ->
             selection_sound (Line l :: rest) (Selected game_mode human_color rest)).
  { intros l rest game_mode human_color Hpair. split; [exact Hpair|].
    exists [Line l]. split; [reflexivity|]. split; [discriminate|].
    intros [E|[]]; discriminate. }
  assert (Htwo : forall (l l' : text) (rest : list console_event) (human_color : color),
             selection_sound (Line l :: Line l' :: rest)
               (Selected human_vs_ai human_color rest)).
  { intros l l' rest human_color. split; [now left|].
    exists [Line l; Line l']. split; [reflexivity|]. split; [discriminate|].
    intros [E|[E|[]]]; discriminate. }
  induction n as [n IH] using lt_wf_ind. intros lines Hlen.
  destruct lines as [|[l|] rest]; cbn [select_game_mode].
  - intros [].
  - destruct (text_eqb (strip l) (txt "1")); [apply Hone; now right|].
    destruct (text_eqb (strip l) (txt "2")).
    + destruct rest as [|[l'|] rest'].
      * intros [E|[]]; discriminate.
      * destruct (text_eqb (strip l') (txt "1")); [apply Htwo|].
        destruct (text_eqb (strip l') (txt "2")); [apply Htwo|].
        do 2 apply selection_sound_skip.
        apply (IH (length rest')); cbn [length] in Hlen; lia.
      * cbn. auto.
    + destruct (text_eqb (strip l) (txt "3")); [apply Hone; now right|].
      apply selection_sound_skip.
      apply (IH (length rest)); cbn [length] in Hlen; lia.
  - cbn. auto.
Qed.

Lemma select_game_mode_reads_past (skipped lines : list console_event) :
  forallb no_menu_number skipped = true ->
  select_game_mode (skipped ++ lines) = select_game_mode lines.
Proof.
  induction skipped as [|e skipped IH]; intros Hskip; [reflexivity|].
  cbn [forallb] in Hskip. apply andb_prop in Hskip as [He Hskip].
  destruct e as [l|]; [|discriminate]. cbn [no_menu_number] in He.
  apply andb_prop in He as [He H3]. apply andb_prop in He as [He H2].
  apply andb_prop in He as [_ H1].
  apply negb_true_iff in H1, H2, H3.
  cbn [app select_game_mode]. rewrite H1, H2, H3. now apply IH.
Qed.

(** X14. [select_game_mode] reads past the lines of ASCII characters that
    are none of the numbers 1, 2 and 3. When the input ends after such
    lines only, or at the question for the colour, the [EOFError] of
    [input()] is let through; at an interrupt after such lines it calls
    [sys.exit(0)]. Whatever the input, it returns a colour other than
    white only with the mode [human_vs_ai], after reading at least one
    line and no interrupt, and it calls [sys.exit(0)] only when the input
    holds an interrupt. *)
Theorem select_game_mode_outcome (skipped lines : list console_event) :
  forallb no_menu_number skipped = true ->
  select_game_mode (skipped ++ lines) = select_game_mode lines
  /\ select_game_mode skipped = EOFError
  /\ (forall l, text_eqb (strip l) (txt "2") = true ->
              select_game_mode (skipped ++ [Line l]) = EOFError)
  /\ select_game_mode (skipped ++ CtrlC :: lines) = SystemExit
  /\ match select_game_mode lines with
     | Selected game_mode human_color rest =>
         (game_mode = human_vs_ai \/ human_color = white)
         /\ exists read, lines = read ++ rest /\ read <> [] /\ ~ In CtrlC read
     | SystemExit => In CtrlC lines
     | EOFError => ~ In CtrlC lines
     end.
Proof.
  intros Hskip. split; [now apply select_game_mode_reads_past|].
  split.
  { rewrite <- (app_nil_r skipped) at 1.
    now rewrite select_game_mode_reads_past. }
  split.
  { intros l Hl. rewrite select_game_mode_reads_past by exact Hskip.
    cbn [select_game_mode]. rewrite Hl.
    destruct (text_eqb (strip l) (txt "1")) eqn:H1; [|reflexivity].
    exfalso. unfold text_eqb in H1, Hl.
    destruct (list_eq_dec ascii_dec (strip l) (txt "1")) as [E1|]; [|discriminate].
    destruct (list_eq_dec ascii_dec (strip l) (txt "2")) as [E2|]; [|discriminate].
    rewrite E1 in E2. discriminate. }
  split; [now rewrite select_game_mode_reads_past|].
  exact (select_game_mode_sound (length lines) lines (le_n _)).
Qed.

(** Two answers that are no number of the menu, then the choice of two
    console players. *)
Lemma select_game_mode_outcome_witness :
  let skipped := [Line (txt "7"); Line (txt " two ")] in
  select_game_mode (skipped ++ [Line (txt " 3 "); Line (txt "e2e4")])
  = Selected human_vs_human white [Line (txt "e2e4")]
  /\ select_game_mode skipped = EOFError
  /\ select_game_mode (skipped ++ [Line (txt "2")]) = EOFError
  /\ select_game_mode (skipped ++ [CtrlC; Line (txt "1")]) = SystemExit.
Proof.
  intros skipped.
  destruct (select_game_mode_outcome skipped [Line (txt " 3 "); Line (txt "e2e4")]
              eq_refl) as (Hpast & Hend & Hcolour & _).
  destruct (select_game_mode_outcome skipped [Line (txt "1")] eq_refl)
    as (_ & _ & _ & Hexit & _).
  split; [rewrite Hpast; reflexivity|]. split; [exact Hend|].
  split; [apply Hcolour; reflexivity|exact Hexit].
Defined.

Section MainProperties.
Context {Board Move : Type} {engine : RulesEngine Board Move}.
Variable w : world.

(** A game played from a new game ends within [enough_fuel] iterations. *)
Lemma play_game_ends (game_mode : mode) (human_color : color) (st0 : io)
    (max_moves : Z) :
  exists final,
    play_game w max_moves (enough_fuel max_moves 3)
      (mkSession (ChessGame_init game_mode human_color) GameState_init st0)
    = Some final.
Proof.
  pose proof (running_init game_mode human_color st0) as Hrun.
  destruct (play_loop_ends w 3 max_moves (enough_fuel max_moves 3) ltac:(lia) _ Hrun)
    as [ended Hended].
  - unfold iterations_left, enough_fuel.
    cbn [state GameState_init move_count consecutive_errors].
    rewrite Z2Nat.id by lia. destruct (0 <? max_moves) eqn:Hlt; lia.
  - unfold play_game. rewrite Hended. cbn [option_map]. eauto.
Qed.

(** X15. Without an API key [main] sends no request and makes no call of
    the limiter: it ends, after the mode was chosen, with the message that
    a key is required, or with a game of two console players that only
    read the console. *)
Theorem main_without_api_key (api_key : option text) (st0 : io) :
  missing api_key = true ->
  exists ended,
    main w api_key (enough_fuel 150 3) st0 = Some ended
    /\ match ended with
       | GamePlayed final =>
           exists rest, select_game_mode (console st0)
                        = Selected human_vs_human white rest
           /\ console_only st0 (outside final)
       | ApiKeyRequired =>
           exists game_mode human_color rest,
             select_game_mode (console st0) = Selected game_mode human_color rest
             /\ has_ai_player game_mode = true
       | Exit0 => select_game_mode (console st0) = SystemExit
       | UncaughtEOFError => select_game_mode (console st0) = EOFError
       end.
Proof.
  intros Hkey. unfold main. rewrite Hkey.
  pose proof (select_game_mode_sound (length (console st0)) (console st0) (le_n _))
    as Hsound.
  destruct (select_game_mode (console st0)) as [game_mode human_color rest| |];
    [|eexists; split; reflexivity..].
  destruct Hsound as (Hpair & _).
  destruct game_mode; cbn [has_ai_player andb];
    try (eexists; split; [reflexivity|]; eexists _, _, _; split; reflexivity).
  destruct Hpair as [E| ->]; [discriminate|].
  match goal with
  | |- context [play_game w 150 _ (mkSession _ _ ?st)] =>
      destruct (play_game_ends human_vs_human white st 150) as [final Hplay]
  end.
  rewrite Hplay. cbn [option_map]. eexists. split; [reflexivity|].
  exists rest. split; [reflexivity|].
  unfold play_game in Hplay.
  destruct (play_loop w 150 (enough_fuel 150 3) _) as [after|] eqn:Hafter;
    [|discriminate].
  injection Hplay as <-.
  destruct (outside_after_loop 150 after) as (-> & _).
  apply (play_loop_humans w) in Hafter; [exact Hafter|].
  unfold humans_only. cbn. auto.
Qed.

End MainProperties.

(** Without a key, after an invalid choice and the choice of two console
    players, the game is played from the console alone. *)
Lemma main_without_api_key_witness :
  let st0 := io_init [Line (txt "7"); Line (txt " 3 "); Line (txt "e2e4");
                      Line (txt "quit")] in
  exists ended,
    main (engine := opening_engine) (steady_world Timeout) None (enough_fuel 150 3) st0
    = Some ended
    /\ match ended with
       | GamePlayed final =>
           exists rest, select_game_mode (console st0)
                        = Selected human_vs_human white rest
           /\ console_only st0 (outside final)
       | ApiKeyRequired =>
           exists game_mode human_color rest,
             select_game_mode (console st0) = Selected game_mode human_color rest
             /\ has_ai_player game_mode = true
       | Exit0 => select_game_mode (console st0) = SystemExit
       | UncaughtEOFError => select_game_mode (console st0) = EOFError
       end.
Proof.
  intros st0. exact (main_without_api_key (steady_world Timeout) None st0 eq_refl).
Defined.

(** ** The termination record *)

Section TerminationRecord.
Context {Board Move : Type} {engine : RulesEngine Board Move}.
Variable w : world.





End TerminationRecord.


